(** * quantum-teleportation: the text pipeline of [QuantumDataTeleporter]
      and [BB84Protocol]

    A shallow embedding of [src/quantum_teleportation/bb84.py] and
    [src/quantum_teleportation/quantum_data_teleporter.py].

    - A Python [str] is a list of code points.
    - A Python number is an [int] (a [Z]) or a [float].  A float is an
      IEEE 754 double: infinite, not a number, or finite, a finite one
      being held as the rational it denotes.  Every float operation
      rounds its exact result to the nearest double, ties to even, and
      overflows to an infinity; converting an [int] too large for a
      double raises [OverflowError].  The sign of a zero is not kept.
    - Exceptions are the left injection of a small error monad.
    - The circuit simulator is an external library.  A circuit is the list
      of instructions the source appends; its noiseless behaviour is given
      by a state-vector semantics with unnormalised integer amplitudes, so
      that "this outcome can be sampled" is decidable and exact. *)

From Stdlib Require Import String.
From Stdlib Require Import ZArith NArith QArith Qround Qpower Lia Lqa.
From Stdlib Require Import List Bool Ascii.
Import ListNotations.

Close Scope Q_scope.

(** ** Python values used by the two classes *)

Module Py.

(** A character: its code point. *)
Definition char := N.

(** A Python string. *)
Definition str := list char.

(** A string literal as a Python string. *)
Definition str_lit (x : string) : str :=
  map N_of_ascii (list_ascii_of_string x).

(** The exceptions the modelled code can raise. *)
Inductive exn : Type :=
| ValueError
| TypeError
| IndexError
| OSError
| OverflowError
| ZeroDivisionError.

Inductive result (A : Type) : Type :=
| Raise (e : exn)
| Return (a : A).

Arguments Raise {A} e.
Arguments Return {A} a.

Definition bind {A B} (m : result A) (k : A -> result B) : result B :=
  match m with
  | Raise e => Raise e
  | Return a => k a
  end.

Notation "x <- m ;; k" := (bind m (fun x => k))
  (at level 61, m at next level, right associativity).

(** *** Doubles *)

Inductive double : Type :=
| Finite (q : Q)
| PosInf
| NegInf
| NaN.

(** [round(x)] with one argument on a finite value: the nearest integer,
    ties going to the even neighbour. *)
Definition round_half_even (q : Q) : Z :=
  let f := Qfloor q in
  match Qcompare (q - inject_Z f) (1 # 2) with
  | Lt => f
  | Gt => (f + 1)%Z
  | Eq => if Z.even f then f else (f + 1)%Z
  end.

Definition pow2 (e : Z) : Q := Qpower (2 # 1) e.

(** The largest [l] with [2^l <= q], for a positive [q]. *)
Definition floor_log2 (q : Q) : Z :=
  let l := (Z.log2 (Qnum q) - Z.log2 (Zpos (Qden q)))%Z in
  if Qle_bool (pow2 l) q then l else (l - 1)%Z.

(** The exponent of the last place of the doubles around a positive [q]:
    53 significant bits, and no exponent below that of the subnormal
    numbers. *)
Definition binade (q : Q) : Z := Z.max (floor_log2 q - 52) (-1074).

Definition round_pos (q : Q) : Q :=
  let e := binade q in
  (inject_Z (round_half_even (q / pow2 e)) * pow2 e)%Q.

(** The nearest double of unbounded exponent, ties to even. *)
Definition round_finite (q : Q) : Q :=
  match Qcompare q 0 with
  | Eq => 0%Q
  | Gt => Qred (round_pos q)
  | Lt => Qred (- round_pos (- q))
  end.

(** Rounding of an exact result to a double; a result that rounds to
    [2^1024] or beyond overflows. *)
Definition round_to_double (q : Q) : double :=
  let r := round_finite q in
  if Qle_bool (pow2 1024) r then PosInf
  else if Qle_bool r (- pow2 1024) then NegInf
  else Finite r.

(** A decimal literal, such as [0.90]: the nearest double. *)
Definition float_lit (q : Q) : double := round_to_double q.

(** [float(z)], as done by mixed arithmetic. *)
Definition float_of_int (z : Z) : result double :=
  match round_to_double (inject_Z z) with
  | Finite r => Return (Finite r)
  | _ => Raise OverflowError
  end.

Definition is_zero_double (d : double) : bool :=
  match d with
  | Finite q => Qeq_bool q 0
  | _ => false
  end.

Definition positive_double (d : double) : bool :=
  match d with
  | Finite q => match Qcompare q 0 with Gt => true | _ => false end
  | PosInf => true
  | _ => false
  end.

Definition opp_double (d : double) : double :=
  match d with
  | Finite q => Finite (Qred (- q))
  | PosInf => NegInf
  | NegInf => PosInf
  | NaN => NaN
  end.

Definition fadd (a b : double) : double :=
  match a, b with
  | NaN, _ | _, NaN => NaN
  | PosInf, NegInf | NegInf, PosInf => NaN
  | PosInf, _ | _, PosInf => PosInf
  | NegInf, _ | _, NegInf => NegInf
  | Finite x, Finite y => round_to_double (x + y)
  end.

Definition fmul (a b : double) : double :=
  match a, b with
  | NaN, _ | _, NaN => NaN
  | Finite x, Finite y => round_to_double (x * y)
  | _, _ =>
      if is_zero_double a || is_zero_double b then NaN
      else if Bool.eqb (positive_double a) (positive_double b)
           then PosInf else NegInf
  end.

(** [a / b] on floats: division by zero raises. *)
Definition fdiv (a b : double) : result double :=
  if is_zero_double b then Raise ZeroDivisionError
  else
    Return
      match a, b with
      | NaN, _ | _, NaN => NaN
      | Finite x, Finite y => round_to_double (x / y)
      | Finite _, _ => Finite 0
      | _, Finite _ =>
          if Bool.eqb (positive_double a) (positive_double b)
          then PosInf else NegInf
      | _, _ => NaN
      end.

(** *** Numbers *)

(** A Python number: [int] or [float]. *)
Inductive num : Type :=
| Int (z : Z)
| Float (d : double).

Definition is_int (n : num) : bool :=
  match n with
  | Int _ => true
  | Float _ => false
  end.

Definition to_double (n : num) : result double :=
  match n with
  | Int z => float_of_int z
  | Float d => Return d
  end.

(** Comparison of two numbers; an [int] and a [float] are compared by
    their exact values.  [None] when one of them is not a number. *)
Definition cmp_double (a b : double) : option comparison :=
  match a, b with
  | NaN, _ | _, NaN => None
  | Finite x, Finite y => Some (Qcompare x y)
  | PosInf, PosInf | NegInf, NegInf => Some Eq
  | PosInf, _ | _, NegInf => Some Gt
  | NegInf, _ | _, PosInf => Some Lt
  end.

Definition as_double (n : num) : double :=
  match n with
  | Int z => Finite (inject_Z z)
  | Float d => d
  end.

Definition cmp (a b : num) : option comparison :=
  cmp_double (as_double a) (as_double b).

(** [a > b], [a < b], [a <= b], [a == b]. *)
Definition gt (a b : num) : bool :=
  match cmp a b with Some Gt => true | _ => false end.

Definition lt (a b : num) : bool :=
  match cmp a b with Some Lt => true | _ => false end.

Definition le (a b : num) : bool :=
  match cmp a b with Some Lt | Some Eq => true | _ => false end.

Definition eq (a b : num) : bool :=
  match cmp a b with Some Eq => true | _ => false end.

(** [a + b]: exact on two [int]s; otherwise both become floats. *)
Definition add (a b : num) : result num :=
  match a, b with
  | Int x, Int y => Return (Int (x + y))
  | _, _ => x <- to_double a ;; y <- to_double b ;; Return (Float (fadd x y))
  end.

Definition sub (a b : num) : result num :=
  match a, b with
  | Int x, Int y => Return (Int (x - y))
  | _, _ =>
      x <- to_double a ;; y <- to_double b ;;
      Return (Float (fadd x (opp_double y)))
  end.

Definition mul (a b : num) : result num :=
  match a, b with
  | Int x, Int y => Return (Int (x * y))
  | _, _ => x <- to_double a ;; y <- to_double b ;; Return (Float (fmul x y))
  end.

(** [a / b], true division: the quotient of two [int]s is rounded once,
    from the exact quotient. *)
Definition truediv (a b : num) : result num :=
  match a, b with
  | Int x, Int y =>
      if (y =? 0)%Z then Raise ZeroDivisionError
      else
        match round_to_double (inject_Z x / inject_Z y) with
        | Finite r => Return (Float (Finite r))
        | _ => Raise OverflowError
        end
  | _, _ =>
      x <- to_double a ;; y <- to_double b ;;
      r <- fdiv x y ;; Return (Float r)
  end.

(** [min(a, b)]: the first argument unless the second is smaller; the
    chosen operand is returned as it is. *)
Definition min (a b : num) : num := if lt b a then b else a.

(** [round(x)] with one argument: an [int]. *)
Definition round (a : num) : result num :=
  match a with
  | Int z => Return (Int z)
  | Float (Finite q) => Return (Int (round_half_even q))
  | Float NaN => Raise ValueError
  | Float _ => Raise OverflowError
  end.

(** [sys.maxsize]: no sequence is longer. *)
Definition maxsize : Z := 2 ^ 63 - 1.

(** [len(x)] on a sequence.  A Python sequence never has more than
    [sys.maxsize] items; a list too long to stand for one is counted up
    to that bound. *)
Definition py_len {A : Type} (x : list A) : Z :=
  Z.min (Z.of_nat (length x)) maxsize.

End Py.

(** ** Strings, slices and the helpers of [quantum_teleportation.utils] *)

Module Utils.
Import Py.

(** The characters ["0"], ["1"], ["+"] and ["-"]. *)
Definition c0 : char := 48%N.
Definition c1 : char := 49%N.
Definition c_plus : char := 43%N.
Definition c_minus : char := 45%N.

Fixpoint str_eqb (a b : str) : bool :=
  match a, b with
  | [], [] => true
  | x :: a', y :: b' => N.eqb x y && str_eqb a' b'
  | _, _ => false
  end.

(** [range(0, stop, step)] for a positive [step]. *)
Definition py_range (stop step : nat) : list nat :=
  map (fun j => j * step) (seq 0 ((stop + step - 1) / step)).

(** [s[i:j]] for [0 <= i <= j]; a slice never raises, it is clamped to
    the end of the string. *)
Definition slice (x : str) (i j : nat) : str := firstn (j - i) (skipn i x).

(** [[merged[i : i + 8] for i in range(0, len(merged), 8)]], the loop of
    [handle_flipped_results] and the comprehension of [run_protocol]. *)
Definition chunks8 (merged : str) : list str :=
  map (fun i => slice merged i (i + 8)) (py_range (length merged) 8).

(** ["".join(parts)]. *)
Definition join (parts : list str) : str := concat parts.

Definition bit_char (b : bool) : char := if b then c1 else c0.

Definition is_sign (c : char) : bool := N.eqb c c_plus || N.eqb c c_minus.

(** [x.zfill(width)]: zeros are inserted on the left, after a leading
    sign character when there is one. *)
Definition zfill (x : str) (width : nat) : str :=
  if (width <=? length x)%nat then x
  else
    let fill := repeat c0 (width - length x) in
    match x with
    | c :: rest => if is_sign c then c :: fill ++ rest else fill ++ x
    | [] => fill
    end.

(** The binary digits of a number, most significant first. *)
Fixpoint bin_pos (p : positive) : str :=
  match p with
  | xH => [c1]
  | xO p' => bin_pos p' ++ [c0]
  | xI p' => bin_pos p' ++ [c1]
  end.

Definition bin (n : N) : str :=
  match n with
  | N0 => [c0]
  | Npos p => bin_pos p
  end.

(** The bits of one character: the binary digits of its code point,
    padded with zeros to eight digits; a code point above 255 has more
    than eight. *)
Definition char_to_bits (c : char) : str := zfill (bin c) 8.

(** Modelled from the spec: [utils.convert_text_to_binary], which is not
    among the sources.  The spec's data model: "the text's bit
    representation; invariant - length is a multiple of 8 when
    representing whole bytes".  Each character contributes the bits of
    its code point, eight of them for a whole byte. *)
Definition convert_text_to_binary (text : str) : str :=
  flat_map char_to_bits text.

(** The value of a base-2 numeral, [None] when a character is not a
    binary digit or the numeral is empty. *)
Fixpoint int_base2_from (acc : N) (x : str) : option N :=
  match x with
  | [] => Some acc
  | c :: rest =>
      if N.eqb c c0 then int_base2_from (2 * acc) rest
      else if N.eqb c c1 then int_base2_from (2 * acc + 1) rest
      else None
  end.

Definition int_base2 (x : str) : option N :=
  match x with
  | [] => None
  | _ => int_base2_from 0 x
  end.

(** Modelled from the spec: [utils.convert_binary_to_text], which is not
    among the sources.  The spec: "slice a bit string into fixed-width
    (8-bit) groups and reassemble into characters".  Each group is read
    as a binary numeral and gives the character with that code; a group
    that is not a binary numeral, or whose value is no code point, is an
    error. *)
Fixpoint convert_binary_to_text (binary_chunks : list str) : result str :=
  match binary_chunks with
  | [] => Return []
  | chunk :: rest =>
      match int_base2 chunk with
      | None => Raise ValueError
      | Some n =>
          if (n <=? 1114111)%N
          then text <- convert_binary_to_text rest ;; Return (n :: text)
          else Raise ValueError
      end
  end.

(** Modelled from the spec: [utils.bit_flipper], which is not among the
    sources.  The spec names it a "bit-flip" utility: every ["0"]
    becomes ["1"] and every other character ["0"]. *)
Definition bit_flipper (binary_text : str) : str :=
  map (fun bit => if N.eqb bit c0 then c1 else c0) binary_text.

(** Every character is a binary digit. *)
Definition is_bits (x : str) : bool :=
  forallb (fun c => N.eqb c c0 || N.eqb c c1) x.

(** Every character is a whole byte: its code point is below 256. *)
Definition is_bytes (x : str) : bool := forallb (fun c => (c <? 256)%N) x.

(** Python truthiness of an optional string argument: [None] and [""]
    are false. *)
Definition truthy (x : option str) : bool :=
  match x with
  | None => false
  | Some [] => false
  | Some (_ :: _) => true
  end.

End Utils.

(** ** Circuits and the noiseless simulator *)

Module Qiskit.
Import Py Utils.

(** The instructions the two classes append to a circuit.  A [measure]
    call on lists of qubits appends one [Measure] per qubit. *)
Inductive instr : Type :=
| X (q : nat)
| Id (q : nat)
| H (q : nat)
| CX (c t : nat)
| CZ (a b : nat)
| CCX (a b t : nat)
| Barrier
| Measure (q c : nat).

(** [QuantumCircuit(num_qubits, num_clbits)] with its instruction list. *)
Record circuit : Type := QuantumCircuit {
  num_qubits : nat;
  num_clbits : nat;
  data : list instr
}.

(** [len(circuit)]: the number of instructions. *)
Definition len (c : circuit) : nat := length (data c).

(** A state vector: one integer amplitude per basis state, bit [q] of
    the index being the value of qubit [q].  Amplitudes are kept up to a
    positive factor ([H] is not divided by the square root of two),
    which changes no probability from zero to non-zero or back. *)
Definition state := list Z.

Definition amp (st : state) (i : nat) : Z := nth i st 0%Z.

Definition tabulate (n : nat) (f : nat -> Z) : state :=
  map f (seq 0 (2 ^ n)).

Definition flip (q i : nat) : nat := Nat.lxor i (2 ^ q).

Definition initial_state (n : nat) : state :=
  tabulate n (fun i => if (i =? 0)%nat then 1%Z else 0%Z).

Definition set_bit (c : nat) (v : bool) (cl : list bool) : list bool :=
  firstn c cl ++ (if (c <? length cl)%nat then [v] else []) ++ skipn (S c) cl.

Definition is_zero (st : state) : bool := forallb (Z.eqb 0) st.

(** One run of the simulator up to some instruction: the state vector
    and the classical register. *)
Definition branch : Type := state * list bool.

Definition apply_gate (n : nat) (g : instr) (st : state) : state :=
  match g with
  | X q => tabulate n (fun i => amp st (flip q i))
  | H q =>
      tabulate n (fun i =>
        if Nat.testbit i q
        then (amp st (flip q i) - amp st i)%Z
        else (amp st i + amp st (flip q i))%Z)
  | CX c t =>
      tabulate n (fun i =>
        if Nat.testbit i c then amp st (flip t i) else amp st i)
  | CZ a b =>
      tabulate n (fun i =>
        if Nat.testbit i a && Nat.testbit i b
        then (- amp st i)%Z else amp st i)
  | CCX a b t =>
      tabulate n (fun i =>
        if Nat.testbit i a && Nat.testbit i b
        then amp st (flip t i) else amp st i)
  | Id _ | Barrier | Measure _ _ => st
  end.

(** Projection of the state on "qubit [q] has value [v]". *)
Definition project (n q : nat) (v : bool) (st : state) : state :=
  tabulate n (fun i =>
    if Bool.eqb (Nat.testbit i q) v then amp st i else 0%Z).

(** The continuations of a branch through one instruction: a measurement
    keeps each value whose probability is not zero. *)
Definition step (n : nat) (g : instr) (b : branch) : list branch :=
  match g with
  | Measure q c =>
      flat_map (fun v =>
        let st' := project n q v (fst b) in
        if is_zero st' then [] else [(st', set_bit c v (snd b))])
        [false; true]
  | _ => [(apply_gate n g (fst b), snd b)]
  end.

Definition run (c : circuit) : list branch :=
  fold_left (fun bs g => flat_map (step (num_qubits c) g) bs)
            (data c)
            [(initial_state (num_qubits c), repeat false (num_clbits c))].

(** The key of a classical register in a counts dictionary: the highest
    classical bit comes first. *)
Definition key_of (cl : list bool) : str := rev (map bit_char cl).

(** The keys a noiseless run of the circuit can produce. *)
Definition outcomes (c : circuit) : list str :=
  map (fun b => key_of (snd b)) (run c).

(** A counts dictionary, in iteration order. *)
Definition counts := list (str * Z).

Fixpoint get (cs : counts) (k : str) : option Z :=
  match cs with
  | [] => None
  | (k', n) :: rest => if str_eqb k' k then Some n else get rest k
  end.

(** The sort key [counts.get] on a key of the dictionary. *)
Definition count_of (cs : counts) (k : str) : Z :=
  match get cs k with
  | Some n => n
  | None => 0%Z
  end.

Definition keys (cs : counts) : list str := map fst cs.

Fixpoint max_from (cs : counts) (best : str) (rest : list str) : str :=
  match rest with
  | [] => best
  | k :: rest' =>
      max_from cs (if (count_of cs best <? count_of cs k)%Z then k else best)
               rest'
  end.

(** [max(counts, key=counts.get)] and [max(counts.keys(), key=counts.get)]:
    the first key, in iteration order, of maximal count; [ValueError] on
    an empty dictionary. *)
Definition py_max (cs : counts) : result str :=
  match keys cs with
  | [] => Raise ValueError
  | k :: ks => Return (max_from cs k ks)
  end.

(** [res] is a key of the dictionary and no key has a larger count. *)
Definition plurality (cs : counts) (res : str) : Prop :=
  In res (keys cs)
  /\ forall k, In k (keys cs) -> (count_of cs k <= count_of cs res)%Z.


Definition total (cs : counts) : Z := fold_right Z.add 0%Z (map snd cs).


(** A simulator backend: the counts it returns at its [i]-th call, for
    a circuit and a number of shots.  A backend is known by the counts
    it answers with; a call on which the library itself raises is not
    in the model. *)
Definition backend : Type := nat -> circuit -> num -> counts.

(** The two backends the classes choose between by [noise_model]. *)
Record simulators : Type := Simulators {
  aer_noisy : backend;     (* AerSimulator.from_backend(device_backend) *)
  basic_aer : backend      (* BasicAer.get_backend("qasm_simulator") *)
}.


(** A backend that always reports the first possible outcome. *)
Definition first_outcome : backend :=
  fun _ c shots =>
    match outcomes c, shots with
    | k :: _, Int n => [(k, n)]
    | _, _ => []
    end.

(** The shots [simulator.run(circuit)] uses when none are given. *)
Definition aer_default_shots : num := Int 1024.

End Qiskit.

(** ** [QuantumDataTeleporter] *)

Module QuantumDataTeleporter.
Import Py Utils Qiskit.

Record t : Type := Make {
  shots : num;
  text_to_send : str;
  binary_text : str;
  circuits : list circuit;
  noise_model : bool
}.

(** The body of the loop of [create_circuits] for one character of
    [binary_text]. *)
Definition create_circuit (bit : char) : circuit :=
  QuantumCircuit 6 6
    [ X (if N.eqb bit c1 then 1 else 0);
      Barrier;
      H 1;
      CX 1 2;
      Barrier;
      CX 0 1;
      H 0;
      Barrier;
      Measure 0 0; Measure 1 1;
      CX 1 2;
      CZ 0 2;
      Measure 2 2;
      Barrier;
      Measure 0 3; Measure 1 4; Measure 2 5;
      CX 3 4;
      CX 3 5;
      CX 4 5;
      Barrier;
      CCX 3 4 5;
      Measure 5 0 ].

Definition create_circuits (binary_text : str) : list circuit :=
  map create_circuit binary_text.

Section WithFiles.

(** The file system: the text stored at a path, if any. *)
Variable files : str -> option str.

(** Modelled from the spec: [utils.text_from_file], which is not among
    the sources.  The spec: "reads plain text from a file path"; a
    path with no readable file is an [OSError]. *)
Definition text_from_file (file_path : str) : result str :=
  match files file_path with
  | Some text => Return text
  | None => Raise OSError
  end.

(** The object [__init__] builds for a text: lines 35-44. *)
Definition object (shots : Z) (text : str) (noise_model : bool) : t :=
  let binary_text := convert_text_to_binary text in
  Make (Int shots) text binary_text (create_circuits binary_text)
       noise_model.

(** [utils.text_from_file(file_path) if file_path else text_to_send];
    past the guard of [__init__] a false [file_path] comes with a
    non-empty [text_to_send]. *)
Definition input_text (file_path text_to_send : option str)
    : result str :=
  match file_path with
  | Some (c :: path) => text_from_file (c :: path)
  | _ => Return (match text_to_send with
                 | Some text => text
                 | None => []
                 end)
  end.

(** [QuantumDataTeleporter.__init__]. *)
Definition init (shots : Z) (file_path text_to_send : option str)
    (noise_model : bool) : result t :=
  if negb (truthy file_path) && negb (truthy text_to_send)
  then Raise ValueError
  else
    text <- input_text file_path text_to_send ;;
    Return (object shots text noise_model).

End WithFiles.

(** [additional_shots] as line 65 computes it and line 67 reassigns it
    when the confidence test succeeds. *)
Definition additional_shots
    (circuit_complexity : Z) (confidence_level : double)
    (base_shots max_shots : Z) : result num :=
  scaled <- mul (Int circuit_complexity) (Int 5) ;;
  room <- sub (Int max_shots) (Int base_shots) ;;
  let additional_shots := min scaled room in
  if gt (Float confidence_level) (Float (float_lit (9 # 10)))
  then
    scaled <- mul (Int circuit_complexity) (Float (float_lit (3 # 2))) ;;
    room <- sub (Int max_shots) (Int base_shots) ;;
    Return (min scaled room)
  else Return additional_shots.

(** [QuantumDataTeleporter.calculate_adaptive_shots]. *)
Definition calculate_adaptive_shots
    (circuit_complexity : Z) (confidence_level : double)
    (base_shots max_shots : Z) : result num :=
  additional_shots <-
    additional_shots circuit_complexity confidence_level
                     base_shots max_shots ;;
  add (Int base_shots) additional_shots.

(** The call of [run_simulation], with the default keyword arguments. *)
Definition default_shots (circuit_complexity : Z) : result num :=
  calculate_adaptive_shots circuit_complexity (float_lit (9 # 10)) 0 5.

(** [handle_flipped_results]. *)
Definition handle_flipped_results (flipped_results : list str) : list str :=
  chunks8 (join flipped_results).

(** [res[0]]. *)
Definition first_char (res : str) : result str :=
  match res with
  | [] => Raise IndexError
  | c :: _ => Return [c]
  end.

(** The [for circuit in self.circuits] loop of [run_simulation]; [i]
    counts the calls made to the simulator so far. *)
Fixpoint measure_all (sims : simulators) (noise : bool) (i : nat)
    (cs : list circuit) : result (list str) :=
  match cs with
  | [] => Return []
  | circuit :: rest =>
      let result_counts :=
        if noise then aer_noisy sims i circuit aer_default_shots
        else basic_aer sims i circuit (Int 1) in
      res <- py_max result_counts ;;
      bit <- first_char res ;;
      flipped_results <- measure_all sims noise (S i) rest ;;
      Return (bit_flipper bit :: flipped_results)
  end.

(** [len(self.circuits[0] if self.circuits else 0)]: the conditional
    expression is the argument of [len], and [len(0)] is a
    [TypeError]. *)
Definition circuit_complexity (cs : list circuit) : result Z :=
  match cs with
  | c :: _ => Return (Z.of_nat (len c))
  | [] => Raise TypeError
  end.

(** [run_simulation]: the object after the call and the returned pair. *)
Definition run_simulation (sims : simulators) (self : t)
    : result (t * (str * bool)) :=
  complexity <- circuit_complexity (circuits self) ;;
  shots' <- default_shots complexity ;;
  let self' := Make shots' (text_to_send self) (binary_text self)
                    (circuits self) (noise_model self) in
  flipped_results <-
    measure_all sims (noise_model self') 0 (circuits self') ;;
  let binary_chunks := handle_flipped_results flipped_results in
  converted_chunks <- convert_binary_to_text binary_chunks ;;
  Return (self',
          (converted_chunks,
           str_eqb converted_chunks (text_to_send self'))).

End QuantumDataTeleporter.

(** ** [BB84Protocol] *)

Module BB84Protocol.
Import Py Utils Qiskit.

(** The [compression] argument: a method name, or [False]. *)
Inductive compression_arg : Type :=
| Method (name : str)
| Disabled.

Definition is_method (c : compression_arg) (name : string) : bool :=
  match c with
  | Method m => str_eqb m (str_lit name)
  | Disabled => false
  end.

Record t : Type := Make {
  data : str;
  compression : compression_arg;
  noise_model : bool;
  shots : num;
  binary_data : str;
  data_length : nat;
  key_bits : str;
  base_bits : str
}.

(** [generate_random_bits]: [length] draws of [random.randint(0, 1)],
    read from a tape of random bits starting at position [pos]. *)
Definition generate_random_bits (tape : nat -> bool) (pos length : nat)
    : str :=
  map (fun i => bit_char (tape i)) (seq pos length).

(** The circuit built for one bit in [run_protocol]. *)
Definition bit_circuit (bit : char) : circuit :=
  QuantumCircuit 1 1
    [ (if N.eqb bit c1 then X 0 else Id 0);
      Barrier;
      Measure 0 0 ].

(** [additional_shots] before the confidence test
    (bb84.py, lines 116-123). *)
Definition additional_shots_default
    (circuit_complexity text_length base_shots max_shots : Z) : result num :=
  scaled <- mul (Int circuit_complexity) (Int 5) ;;
  room <- sub (Int max_shots) (Int base_shots) ;;
  let additional_shots_complexity := min scaled room in
  tenth <- mul (Int text_length) (Float (float_lit (1 # 10))) ;;
  room <- sub (Int max_shots) (Int base_shots) ;;
  let additional_shots_length := min tenth room in
  total <- add additional_shots_complexity additional_shots_length ;;
  mean <- truediv total (Int 2) ;;
  round mean.

(** [additional_shots] as reassigned when the confidence test succeeds
    (bb84.py, line 126). *)
Definition additional_shots_confident
    (circuit_complexity base_shots max_shots : Z) : result num :=
  scaled <- mul (Int circuit_complexity) (Float (float_lit (3 # 2))) ;;
  room <- sub (Int max_shots) (Int base_shots) ;;
  Return (min scaled room).

(** Lines 116-126: the default value is computed first, whatever the
    confidence. *)
Definition additional_shots
    (circuit_complexity text_length : Z) (confidence_level : double)
    (base_shots max_shots : Z) : result num :=
  additional_shots <-
    additional_shots_default circuit_complexity text_length
                             base_shots max_shots ;;
  if gt (Float confidence_level) (Float (float_lit (9 # 10)))
  then additional_shots_confident circuit_complexity base_shots max_shots
  else Return additional_shots.

(** [BB84Protocol.calculate_adaptive_shots]. *)
Definition calculate_adaptive_shots
    (circuit_complexity text_length : Z) (confidence_level : double)
    (base_shots max_shots : Z) : result num :=
  additional_shots <-
    additional_shots circuit_complexity text_length confidence_level
                     base_shots max_shots ;;
  add (Int base_shots) additional_shots.

(** The call of [run_protocol], with the default keyword arguments. *)
Definition default_shots (circuit_complexity text_length : Z) : result num :=
  calculate_adaptive_shots circuit_complexity text_length
                           (float_lit (9 # 10)) 250 4096.

Section WithCompression.

(** The adapters of [quantum_teleportation.compression_utils] delegate
    to external compression libraries. *)
Variable brotli_compression : str -> str.
Variable adaptive_compression : str -> str * str.
Variable brotli_decompression : str -> result str.
Variable adaptive_decompression : str -> result str.

(** Modelled from the spec: [c_utils.decompress_data], which is not
    among the sources.  The spec's pipeline ends with "(optional
    decompression)", "selecting between two named strategies": the
    text is decompressed by the strategy it was compressed with and is
    left as it is when compression is off. *)
Definition decompress_data (text : str) (compression : compression_arg)
    : result str :=
  if is_method compression "brotli"%string then brotli_decompression text
  else if is_method compression "adaptive"%string
  then adaptive_decompression text
  else Return text.

(** [self.binary_data] after the [if compression == ...] of
    [__init__], before it is padded. *)
Definition compressed_binary (compression : compression_arg)
    (data : str) : str :=
  let binary_data := convert_text_to_binary data in
  if is_method compression "brotli"
  then convert_text_to_binary (brotli_compression binary_data)
  else if is_method compression "adaptive"
  then convert_text_to_binary (fst (adaptive_compression binary_data))
  else binary_data.

(** [BB84Protocol.__init__]. *)
Definition init (tape : nat -> bool) (data : str)
    (compression : compression_arg) (noise_model : bool) (shots : Z) : t :=
  let binary_data := convert_text_to_binary data in
  let data_length := length binary_data in
  let key_bits := generate_random_bits tape 0 data_length in
  let base_bits := generate_random_bits tape data_length data_length in
  let binary_data := compressed_binary compression data in
  let max_length :=
    Nat.max (length binary_data)
            (Nat.max (length key_bits) (length base_bits)) in
  Make data compression noise_model (Int shots)
       (zfill binary_data max_length) data_length
       (zfill key_bits max_length) (zfill base_bits max_length).

(** The [for bit in encoded_data] loop of [run_protocol]. *)
Fixpoint measure_all (sims : simulators) (noise : bool) (shots : num)
    (i : nat) (encoded_data : str) : result (list str) :=
  match encoded_data with
  | [] => Return []
  | bit :: rest =>
      let circuit := bit_circuit bit in
      let result_counts :=
        if noise then aer_noisy sims i circuit shots
        else basic_aer sims i circuit shots in
      res <- py_max result_counts ;;
      flipped_results <- measure_all sims noise shots (S i) rest ;;
      Return (res :: flipped_results)
  end.

(** [self.shots == -1]. *)
Definition is_minus_one (n : num) : bool := eq n (Int (-1)).

(** [self.shots] after the [if self.shots == -1] of [run_protocol]. *)
Definition effective_shots (self : t) : result num :=
  if is_minus_one (shots self)
  then default_shots (py_len (binary_data self)) (py_len (binary_data self))
  else Return (shots self).

(** [run_protocol]: the object after the call and the returned pair. *)
Definition run_protocol (sims : simulators) (self : t)
    : result (t * (str * bool)) :=
  let encoded_data := binary_data self in
  shots' <- effective_shots self ;;
  let self' := Make (data self) (compression self) (noise_model self)
                    shots' (binary_data self)
                    (data_length self) (key_bits self) (base_bits self) in
  flipped_results <-
    measure_all sims (noise_model self') (shots self') 0 encoded_data ;;
  let decoded_binary := join flipped_results in
  text <- convert_binary_to_text (chunks8 decoded_binary) ;;
  decoded_text <- decompress_data text (compression self') ;;
  Return (self', (decoded_text, str_eqb decoded_text (data self'))).

End WithCompression.

End BB84Protocol.

(** Short names for the two classes. *)
Module Teleporter := QuantumDataTeleporter.
Module BB84 := BB84Protocol.

(** ** Concrete environments *)

(** A file system with no file, and one with a single file. *)
Definition no_files : Py.str -> option Py.str := fun _ => None.


(** Both backends report the first possible outcome. *)
Definition first_outcome_simulators : Qiskit.simulators :=
  Qiskit.Simulators Qiskit.first_outcome Qiskit.first_outcome.

(** ** The simulator's answers, as the two loops ask for them *)

(** The counts [run_simulation] gets for its [i]-th circuit: from
    [simulator.run(circuit)] with a noise model, from
    [execute(circuit, backend=simulator, shots=1)] without. *)
Definition teleporter_answer (sims : Qiskit.simulators) (noise : bool)
    (i : nat) (circuit : Qiskit.circuit) : Qiskit.counts :=
  if noise
  then Qiskit.aer_noisy sims i circuit Qiskit.aer_default_shots
  else Qiskit.basic_aer sims i circuit (Py.Int 1).

(** The counts [run_protocol] gets for its [i]-th bit. *)
Definition bb84_answer (sims : Qiskit.simulators) (noise : bool)
    (shots : Py.num) (i : nat) (bit : Py.char) : Qiskit.counts :=
  (if noise then Qiskit.aer_noisy sims else Qiskit.basic_aer sims)
    i (BB84.bit_circuit bit) shots.

(** The pair a method returns, without the object it leaves behind. *)
Definition returned {A : Type} (r : Py.result (A * (Py.str * bool)))
    : Py.result (Py.str * bool) :=
  Py.bind r (fun x => Py.Return (snd x)).

(** A noisy backend: of 1024 shots, 100 give the first possible outcome
    with every bit flipped and 924 give the outcome itself. *)
Definition mostly_right : Qiskit.backend :=
  fun _ c _ =>
    match Qiskit.outcomes c with
    | k :: _ => [(Utils.bit_flipper k, 100%Z); (k, 924%Z)]
    | [] => []
    end.


(** ** Bounds on numbers *)

(** The largest double, [(2^53 - 1) * 2^971]. *)
Definition dbl_max : Z := ((2 ^ 53 - 1) * 2 ^ 971)%Z.

(** The doubles [z * 2^k] with [|z| < 2^53]. *)
Definition dpoint (q : Q) : Prop :=
  exists z k,
    (- 2 ^ 53 < z < 2 ^ 53)%Z /\ (-1074 <= k <= 971)%Z
    /\ (q == inject_Z z * Py.pow2 k)%Q.

(** A double that is at most [hi], at least [lo]. *)
Definition ubd (hi : Q) (d : Py.double) : Prop :=
  match d with
  | Py.Finite q => (q <= hi)%Q
  | Py.NegInf => True
  | _ => False
  end.

Definition lbd (lo : Q) (d : Py.double) : Prop :=
  match d with
  | Py.Finite q => (lo <= q)%Q
  | Py.PosInf => True
  | _ => False
  end.

(** The same on numbers, by their exact values. *)
Definition ub (hi : Q) (n : Py.num) : Prop := ubd hi (Py.as_double n).
Definition lb (lo : Q) (n : Py.num) : Prop := lbd lo (Py.as_double n).

(** * Properties *)

Import Py Utils Qiskit.

(** ** The error monad *)

Lemma bind_Return {A B} (m : result A) (k : A -> result B) b :
  bind m k = Return b -> exists a, m = Return a /\ k a = Return b.
Proof.
  destruct m as [e | a]; simpl; [discriminate |].
  intros E. exists a. split; [reflexivity | exact E].
Qed.

(** Peel the first step off a computation known to return. *)
Tactic Notation "unbind" hyp(E) "as"
    "(" simple_intropattern(a) "," simple_intropattern(Ha) ")" :=
  apply bind_Return in E; destruct E as (a & Ha & E).

(** ** Rounding to a double *)

Section RoundFacts.
Local Open Scope Q_scope.

Lemma round_half_even_lower q lo :
  inject_Z lo <= q -> (lo <= round_half_even q)%Z.
Proof.
  intros Hlo.
  assert (Flo : (lo <= Qfloor q)%Z).
  { rewrite <- (Qfloor_Z lo). apply Qfloor_resp_le. exact Hlo. }
  unfold round_half_even.
  destruct (Qcompare (q - inject_Z (Qfloor q)) (1 # 2));
    [destruct (Z.even (Qfloor q)) | |]; lia.
Qed.

Lemma round_half_even_upper q hi :
  q <= inject_Z hi -> (round_half_even q <= hi)%Z.
Proof.
  intros Hhi.
  assert (Fhi : (Qfloor q <= hi)%Z).
  { rewrite <- (Qfloor_Z hi). apply Qfloor_resp_le. exact Hhi. }
  assert (Up : inject_Z (Qfloor q) < q -> (Qfloor q + 1 <= hi)%Z).
  { intros L. destruct (Z_lt_le_dec (Qfloor q) hi) as [? | G]; [lia |].
    exfalso. rewrite Zle_Qle in G.
    apply (Qlt_irrefl q).
    eapply Qle_lt_trans; [exact Hhi |].
    eapply Qle_lt_trans; [exact G | exact L]. }
  unfold round_half_even.
  destruct (Qcompare_spec (q - inject_Z (Qfloor q)) (1 # 2)) as [E | L | G].
  - destruct (Z.even (Qfloor q)); [lia |]. apply Up. lra.
  - lia.
  - apply Up. lra.
Qed.

Lemma pow2_pos e : 0 < pow2 e.
Proof. apply Qpower_0_lt. reflexivity. Qed.

Lemma pow2_plus a b : pow2 (a + b) == pow2 a * pow2 b.
Proof. apply Qpower_plus. discriminate. Qed.

Lemma pow2_Z k : (0 <= k)%Z -> pow2 k == inject_Z (2 ^ k).
Proof. intros Hk. symmetry. apply (Zpower_Qpower 2 k Hk). Qed.

Lemma pow2_le a b : (a <= b)%Z -> pow2 a <= pow2 b.
Proof. intros L. apply Qpower_le_compat_l; [exact L | discriminate]. Qed.

Lemma pow2_lt_inv a b : pow2 a < pow2 b -> (a < b)%Z.
Proof.
  intros L. apply (Qpower_lt_compat_l_inv (2 # 1)); [exact L | reflexivity].
Qed.

Lemma pow2_split a b : pow2 a == pow2 (a - b) * pow2 b.
Proof.
  rewrite <- pow2_plus. replace (a - b + b)%Z with a by lia. reflexivity.
Qed.

Lemma floor_log2_le q : 0 < q -> pow2 (floor_log2 q) <= q.
Proof.
  intros Hq. unfold floor_log2.
  set (l := (Z.log2 (Qnum q) - Z.log2 (Z.pos (Qden q)))%Z).
  destruct (Qle_bool (pow2 l) q) eqn:T; [apply Qle_bool_iff; exact T |].
  destruct q as [n d]. cbn [Qnum Qden] in *.
  assert (Hn : (0 < n)%Z) by (unfold Qlt in Hq; cbn in Hq; lia).
  destruct (Z.log2_spec n Hn) as [Ln _].
  destruct (Z.log2_spec (Z.pos d) ltac:(lia)) as [_ Ld].
  rewrite Qmake_Qdiv.
  apply Qle_shift_div_l;
    [change 0 with (inject_Z 0); rewrite <- Zlt_Qlt; lia |].
  apply Qle_trans with (pow2 (Z.log2 n)).
  - rewrite (pow2_split (Z.log2 n) (Z.succ (Z.log2 (Z.pos d)))).
    replace (Z.log2 n - Z.succ (Z.log2 (Z.pos d)))%Z with (l - 1)%Z
      by (subst l; lia).
    apply Qmult_le_l; [apply pow2_pos |].
    rewrite pow2_Z by (pose proof (Z.log2_nonneg (Z.pos d)); lia).
    rewrite <- Zle_Qle. lia.
  - rewrite pow2_Z by apply Z.log2_nonneg. rewrite <- Zle_Qle. exact Ln.
Qed.

Lemma binade_le q k :
  0 < q -> q < pow2 (53 + k) -> (-1074 <= k)%Z -> (binade q <= k)%Z.
Proof.
  intros Hq Hk Hmin. unfold binade.
  pose proof (floor_log2_le q Hq) as L.
  assert (floor_log2 q < 53 + k)%Z
    by (apply pow2_lt_inv; eapply Qle_lt_trans; eassumption).
  lia.
Qed.

Lemma binade_low q :
  0 < q -> (binade q = -1074)%Z \/ pow2 (52 + binade q) <= q.
Proof.
  intros Hq. unfold binade.
  destruct (Z.max_spec (floor_log2 q - 52) (-1074)) as [[_ ->] | [_ ->]].
  - left. reflexivity.
  - right. replace (52 + (floor_log2 q - 52))%Z with (floor_log2 q) by lia.
    apply floor_log2_le. exact Hq.
Qed.

(** [z * 2^k] over the grid of step [2^e], [e <= k]. *)
Lemma on_grid z k e :
  (e <= k)%Z -> inject_Z z * pow2 k == inject_Z (z * 2 ^ (k - e)) * pow2 e.
Proof.
  intros L. rewrite inject_Z_mult, <- pow2_Z by lia.
  rewrite (pow2_split k e). ring.
Qed.

Lemma round_pos_upper q z k :
  0 < q -> q <= inject_Z z * pow2 k -> (z < 2 ^ 53)%Z -> (-1074 <= k)%Z ->
  round_pos q <= inject_Z z * pow2 k.
Proof.
  intros Hq Hz Hbound Hk. unfold round_pos.
  assert (E : (binade q <= k)%Z).
  { apply binade_le; [exact Hq | | exact Hk].
    eapply Qle_lt_trans; [exact Hz |].
    rewrite pow2_plus. apply Qmult_lt_compat_r; [apply pow2_pos |].
    rewrite pow2_Z by lia. rewrite <- Zlt_Qlt. exact Hbound. }
  set (e := binade q) in *.
  rewrite (on_grid z k e E).
  apply Qmult_le_compat_r; [| apply Qlt_le_weak, pow2_pos].
  rewrite <- Zle_Qle. apply round_half_even_upper.
  apply Qle_shift_div_r; [apply pow2_pos |].
  rewrite <- (on_grid z k e E). exact Hz.
Qed.

Lemma round_pos_lower q z k :
  0 < q -> inject_Z z * pow2 k <= q -> (z < 2 ^ 53)%Z -> (-1074 <= k)%Z ->
  inject_Z z * pow2 k <= round_pos q.
Proof.
  intros Hq Hz Hbound Hk. unfold round_pos.
  set (e := binade q).
  destruct (Z_le_gt_dec e k) as [E | E].
  - rewrite (on_grid z k e E).
    apply Qmult_le_compat_r; [| apply Qlt_le_weak, pow2_pos].
    rewrite <- Zle_Qle. apply round_half_even_lower.
    apply Qle_shift_div_l; [apply pow2_pos |].
    rewrite <- (on_grid z k e E). exact Hz.
  - destruct (binade_low q Hq) as [Sub | Low];
      [fold e in Sub; lia | fold e in Low].
    apply Qle_trans with (pow2 (53 + k)).
    + rewrite pow2_plus. apply Qmult_le_compat_r;
        [| apply Qlt_le_weak, pow2_pos].
      rewrite pow2_Z by lia. rewrite <- Zle_Qle. lia.
    + apply Qle_trans with (pow2 (52 + e)); [apply pow2_le; lia |].
      rewrite (pow2_plus 52 e).
      apply Qmult_le_compat_r; [| apply Qlt_le_weak, pow2_pos].
      rewrite pow2_Z by lia. rewrite <- Zle_Qle.
      apply round_half_even_lower.
      apply Qle_shift_div_l; [apply pow2_pos |].
      rewrite <- pow2_Z by lia. rewrite <- pow2_plus. exact Low.
Qed.

Lemma round_pos_nonneg q : 0 < q -> 0 <= round_pos q.
Proof.
  intros Hq. unfold round_pos.
  apply Qmult_le_0_compat; [| apply Qlt_le_weak, pow2_pos].
  change 0 with (inject_Z 0). rewrite <- Zle_Qle.
  apply round_half_even_lower. change (inject_Z 0) with 0.
  apply Qle_shift_div_l; [apply pow2_pos |]. lra.
Qed.

Lemma scaled_opp z k : inject_Z (- z) * pow2 k == - (inject_Z z * pow2 k).
Proof. rewrite inject_Z_opp. ring. Qed.

Lemma scaled_sign z k : 0 < inject_Z z * pow2 k -> (0 < z)%Z.
Proof.
  intros P. destruct (Z_lt_le_dec 0 z) as [? | L]; [assumption |].
  exfalso. rewrite Zle_Qle in L. pose proof (pow2_pos k).
  assert (inject_Z z * pow2 k <= 0).
  { setoid_replace 0 with (0 * pow2 k) by ring.
    apply Qmult_le_compat_r; [exact L | lra]. }
  lra.
Qed.

(** Rounding to a double never crosses a double: here a number
    [z * 2^k] with [|z| < 2^53] and [k >= -1074]. *)
Lemma round_finite_upper q z k :
  q <= inject_Z z * pow2 k -> (- 2 ^ 53 < z < 2 ^ 53)%Z -> (-1074 <= k)%Z ->
  round_finite q <= inject_Z z * pow2 k.
Proof.
  intros Hz Hbound Hk. unfold round_finite.
  destruct (Qcompare_spec q 0) as [E | L | G].
  - rewrite E in Hz. exact Hz.
  - rewrite Qred_correct.
    destruct (Qlt_le_dec 0 (inject_Z z * pow2 k)) as [P | N].
    + pose proof (round_pos_nonneg (- q) ltac:(lra)). lra.
    + assert (Neg : inject_Z (- z) * pow2 k <= round_pos (- q)).
      { apply round_pos_lower; [lra | | lia | exact Hk].
        rewrite scaled_opp. lra. }
      rewrite scaled_opp in Neg. lra.
  - rewrite Qred_correct.
    apply round_pos_upper; [exact G | exact Hz | lia | exact Hk].
Qed.

Lemma round_finite_lower q z k :
  inject_Z z * pow2 k <= q -> (- 2 ^ 53 < z < 2 ^ 53)%Z -> (-1074 <= k)%Z ->
  inject_Z z * pow2 k <= round_finite q.
Proof.
  intros Hz Hbound Hk. unfold round_finite.
  destruct (Qcompare_spec q 0) as [E | L | G].
  - rewrite E in Hz. exact Hz.
  - rewrite Qred_correct.
    assert (Neg : round_pos (- q) <= inject_Z (- z) * pow2 k).
    { apply round_pos_upper; [lra | | lia | exact Hk].
      rewrite scaled_opp. lra. }
    rewrite scaled_opp in Neg. lra.
  - rewrite Qred_correct.
    apply round_pos_lower; [exact G | exact Hz | lia | exact Hk].
Qed.

Lemma round_finite_exact z k :
  (- 2 ^ 53 < z < 2 ^ 53)%Z -> (-1074 <= k)%Z ->
  round_finite (inject_Z z * pow2 k) == inject_Z z * pow2 k.
Proof.
  intros Hb Hk. apply Qle_antisym.
  - apply round_finite_upper; [apply Qle_refl | exact Hb | exact Hk].
  - apply round_finite_lower; [apply Qle_refl | exact Hb | exact Hk].
Qed.

End RoundFacts.

(** ** Numbers within bounds *)

Section NumFacts.
Local Open Scope Q_scope.

Lemma dpoint_below q : dpoint q -> q < pow2 1024.
Proof.
  intros (z & k & Hz & Hk & E). rewrite E.
  destruct (Z_lt_le_dec 0 z) as [P | N].
  - apply Qlt_le_trans with (pow2 (53 + k)); [| apply pow2_le; lia].
    rewrite pow2_plus. apply Qmult_lt_compat_r; [apply pow2_pos |].
    rewrite pow2_Z by lia. rewrite <- Zlt_Qlt. lia.
  - apply Qle_lt_trans with 0; [| apply pow2_pos].
    setoid_replace 0 with (0 * pow2 k) by ring.
    apply Qmult_le_compat_r; [| apply Qlt_le_weak, pow2_pos].
    rewrite Zle_Qle in N. exact N.
Qed.

Lemma dpoint_opp q : dpoint q -> dpoint (- q).
Proof.
  intros (z & k & Hz & Hk & E). exists (- z)%Z, k.
  split; [lia |]. split; [exact Hk |].
  rewrite scaled_opp, E. reflexivity.
Qed.

Lemma dpoint_above q : dpoint q -> - pow2 1024 < q.
Proof.
  intros D. pose proof (dpoint_below _ (dpoint_opp _ D)) as B.
  revert B. generalize (pow2 1024). intros top B. lra.
Qed.

Lemma dpoint_Z z : (- 2 ^ 53 < z < 2 ^ 53)%Z -> dpoint (inject_Z z).
Proof.
  intros Hz. exists z, 0%Z. split; [exact Hz |]. split; [lia |].
  change (pow2 0) with 1. ring.
Qed.

Lemma dpoint_0 : dpoint 0.
Proof. apply (dpoint_Z 0). lia. Qed.

Lemma dpoint_double z :
  (- 2 ^ 53 < z < 2 ^ 53)%Z -> dpoint (inject_Z z + inject_Z z).
Proof.
  intros Hz. exists z, 1%Z. split; [exact Hz |]. split; [lia |].
  change (pow2 1) with (2 # 1). ring.
Qed.

Lemma dpoint_dbl_max : dpoint (inject_Z dbl_max).
Proof.
  exists (2 ^ 53 - 1)%Z, 971%Z. split; [lia |]. split; [lia |].
  unfold dbl_max. rewrite inject_Z_mult, pow2_Z by lia. reflexivity.
Qed.

Lemma dpoint_Proper q q' : q == q' -> dpoint q -> dpoint q'.
Proof.
  intros E (z & k & Hz & Hk & E'). exists z, k.
  split; [exact Hz |]. split; [exact Hk |]. rewrite <- E. exact E'.
Qed.

(** Rounding stays on its side of a double. *)
Lemma round_to_double_ub q hi :
  dpoint hi -> q <= hi -> ubd hi (round_to_double q).
Proof.
  intros D L. pose proof (dpoint_below hi D) as B.
  destruct D as (z & k & Hz & Hk & E).
  assert (R : round_finite q <= hi).
  { rewrite E. apply round_finite_upper; [rewrite <- E; exact L | exact Hz |].
    lia. }
  unfold round_to_double.
  destruct (Qle_bool (pow2 1024) (round_finite q)) eqn:T.
  - apply Qle_bool_iff in T. exfalso.
    revert T B. generalize (pow2 1024). intros top T B. lra.
  - destruct (Qle_bool (round_finite q) (- pow2 1024)); [exact I | exact R].
Qed.

Lemma round_to_double_lb q lo :
  dpoint lo -> lo <= q -> lbd lo (round_to_double q).
Proof.
  intros D L. pose proof (dpoint_above lo D) as B.
  destruct D as (z & k & Hz & Hk & E).
  assert (R : lo <= round_finite q).
  { rewrite E. apply round_finite_lower; [rewrite <- E; exact L | exact Hz |].
    lia. }
  unfold round_to_double.
  destruct (Qle_bool (pow2 1024) (round_finite q)); [exact I |].
  destruct (Qle_bool (round_finite q) (- pow2 1024)) eqn:T; [| exact R].
  apply Qle_bool_iff in T. exfalso.
  revert T B. generalize (pow2 1024). intros top T B. lra.
Qed.

Lemma round_to_double_not_nan q : round_to_double q <> NaN.
Proof.
  unfold round_to_double.
  destruct (Qle_bool _ _); [discriminate |].
  destruct (Qle_bool _ _); discriminate.
Qed.

Lemma within_finite lo hi d :
  lbd lo d -> ubd hi d -> exists r, d = Finite r /\ lo <= r /\ r <= hi.
Proof.
  destruct d as [r | | |]; cbn [lbd ubd]; try contradiction.
  intros L U. exists r. split; [reflexivity |]. split; assumption.
Qed.

Lemma ubd_mono h h' d : h <= h' -> ubd h d -> ubd h' d.
Proof.
  intros L. destruct d; cbn [ubd]; try tauto. intros U. lra.
Qed.

Lemma lbd_mono l l' d : l' <= l -> lbd l d -> lbd l' d.
Proof.
  intros L. destruct d; cbn [lbd]; try tauto. intros U. lra.
Qed.

(** [float(z)]. *)
Lemma float_of_int_Finite z d :
  float_of_int z = Return d -> exists x, d = Finite x.
Proof.
  unfold float_of_int. destruct (round_to_double (inject_Z z)) as [x | | |];
    intros E; inversion E. exists x. reflexivity.
Qed.

Lemma float_of_int_ub z hi d :
  dpoint hi -> inject_Z z <= hi -> float_of_int z = Return d -> ubd hi d.
Proof.
  intros D L E. pose proof (round_to_double_ub _ _ D L) as U.
  unfold float_of_int in E.
  destruct (round_to_double (inject_Z z)); inversion E; subst. exact U.
Qed.

Lemma float_of_int_lb z lo d :
  dpoint lo -> lo <= inject_Z z -> float_of_int z = Return d -> lbd lo d.
Proof.
  intros D L E. pose proof (round_to_double_lb _ _ D L) as U.
  unfold float_of_int in E.
  destruct (round_to_double (inject_Z z)); inversion E; subst. exact U.
Qed.

Lemma float_of_int_returns z lo hi :
  dpoint lo -> dpoint hi -> lo <= inject_Z z -> inject_Z z <= hi ->
  exists r, float_of_int z = Return (Finite r) /\ lo <= r /\ r <= hi.
Proof.
  intros Dl Dh L U.
  pose proof (round_to_double_lb _ _ Dl L) as A.
  pose proof (round_to_double_ub _ _ Dh U) as B.
  destruct (within_finite _ _ _ A B) as (r & E & Hr).
  exists r. split; [| exact Hr]. unfold float_of_int. rewrite E. reflexivity.
Qed.

Lemma float_of_int_2 : float_of_int 2 = Return (Finite (2 # 1)).
Proof. vm_compute. reflexivity. Qed.

Lemma to_double_ub n hi d :
  dpoint hi -> ub hi n -> to_double n = Return d -> ubd hi d.
Proof.
  intros D U E. destruct n as [z | d']; cbn [to_double] in E.
  - eapply float_of_int_ub; [exact D | exact U | exact E].
  - inversion E; subst. exact U.
Qed.

Lemma to_double_lb n lo d :
  dpoint lo -> lb lo n -> to_double n = Return d -> lbd lo d.
Proof.
  intros D L E. destruct n as [z | d']; cbn [to_double] in E.
  - eapply float_of_int_lb; [exact D | exact L | exact E].
  - inversion E; subst. exact L.
Qed.

Lemma to_double_returns n lo hi :
  dpoint lo -> dpoint hi -> lb lo n -> ub hi n ->
  exists r, to_double n = Return (Finite r) /\ lo <= r /\ r <= hi.
Proof.
  intros Dl Dh L U. destruct n as [z | d]; cbn [to_double].
  - apply float_of_int_returns; assumption.
  - unfold lb, ub in L, U. cbn [as_double] in L, U.
    destruct (within_finite _ _ _ L U) as (r & -> & Hr).
    exists r. split; [reflexivity | exact Hr].
Qed.

(** Sums. *)
Lemma fadd_ub a b h1 h2 :
  dpoint (h1 + h2) -> ubd h1 a -> ubd h2 b -> ubd (h1 + h2) (fadd a b).
Proof.
  intros D A B.
  destruct a as [x | | |], b as [y | | |]; cbn [ubd] in A, B;
    try contradiction; cbn [fadd]; try exact I.
  apply round_to_double_ub; [exact D | lra].
Qed.

Lemma fadd_lb a b l1 l2 :
  dpoint (l1 + l2) -> lbd l1 a -> lbd l2 b -> lbd (l1 + l2) (fadd a b).
Proof.
  intros D A B.
  destruct a as [x | | |], b as [y | | |]; cbn [lbd] in A, B;
    try contradiction; cbn [fadd]; try exact I.
  apply round_to_double_lb; [exact D | lra].
Qed.

Lemma add_ub a b h1 h2 r :
  dpoint h1 -> dpoint h2 -> dpoint (h1 + h2) -> ub h1 a -> ub h2 b ->
  add a b = Return r -> ub (h1 + h2) r.
Proof.
  intros D1 D2 D A B E.
  destruct a as [x | da], b as [y | db]; cbn [add] in E;
    [inversion E; subst; unfold ub in *; cbn [as_double ubd] in *;
     rewrite inject_Z_plus; lra | | |];
    unbind E as (x', Hx); unbind E as (y', Hy); inversion E; subst;
    (apply fadd_ub; [exact D | eapply to_double_ub; eassumption
                     | eapply to_double_ub; eassumption]).
Qed.

Lemma add_lb a b l1 l2 r :
  dpoint l1 -> dpoint l2 -> dpoint (l1 + l2) -> lb l1 a -> lb l2 b ->
  add a b = Return r -> lb (l1 + l2) r.
Proof.
  intros D1 D2 D A B E.
  destruct a as [x | da], b as [y | db]; cbn [add] in E;
    [inversion E; subst; unfold lb in *; cbn [as_double lbd] in *;
     rewrite inject_Z_plus; lra | | |];
    unbind E as (x', Hx); unbind E as (y', Hy); inversion E; subst;
    (apply fadd_lb; [exact D | eapply to_double_lb; eassumption
                     | eapply to_double_lb; eassumption]).
Qed.

Lemma add_returns a b la ha lb' hb :
  dpoint la -> dpoint ha -> dpoint lb' -> dpoint hb ->
  lb la a -> ub ha a -> lb lb' b -> ub hb b ->
  exists r, add a b = Return r.
Proof.
  intros D1 D2 D3 D4 La Ua Lb Ub.
  destruct (to_double_returns a la ha D1 D2 La Ua) as (x & Ex & _).
  destruct (to_double_returns b lb' hb D3 D4 Lb Ub) as (y & Ey & _).
  destruct a as [za | da], b as [zb | db]; cbn [add];
    [eexists; reflexivity | | |];
    rewrite Ex, Ey; cbn [bind]; eexists; reflexivity.
Qed.

(** Halves: [x / 2]. *)
Lemma half_le x h : x <= h + h -> x / (2 # 1) <= h.
Proof. intros L. apply Qle_shift_div_r; [reflexivity | lra]. Qed.

Lemma half_ge x l : l + l <= x -> l <= x / (2 # 1).
Proof. intros L. apply Qle_shift_div_l; [reflexivity | lra]. Qed.

Lemma truediv_2 a :
  truediv a (Int 2)
  = match a with
    | Int x =>
        match round_to_double (inject_Z x / (2 # 1)) with
        | Finite r => Return (Float (Finite r))
        | _ => Raise OverflowError
        end
    | Float (Finite x) => Return (Float (round_to_double (x / (2 # 1))))
    | Float d => Return (Float d)
    end.
Proof.
  destruct a as [x | d]; [reflexivity |].
  unfold truediv. cbn [to_double bind]. rewrite float_of_int_2.
  cbn [bind]. destruct d; reflexivity.
Qed.

Lemma halve_ub a h r :
  dpoint h -> ub (h + h) a -> truediv a (Int 2) = Return r -> ub h r.
Proof.
  intros D U E. rewrite truediv_2 in E.
  destruct a as [x | [x | | |]]; unfold ub in U; cbn [as_double ubd] in U;
    try contradiction.
  - assert (B : ubd h (round_to_double (inject_Z x / (2 # 1))))
      by (apply round_to_double_ub; [exact D | apply half_le; exact U]).
    destruct (round_to_double (inject_Z x / (2 # 1))); inversion E; subst.
    exact B.
  - inversion E; subst. unfold ub. cbn [as_double].
    apply round_to_double_ub; [exact D | apply half_le; exact U].
  - inversion E; subst. exact I.
Qed.

Lemma halve_lb a l r :
  dpoint l -> lb (l + l) a -> truediv a (Int 2) = Return r -> lb l r.
Proof.
  intros D L E. rewrite truediv_2 in E.
  destruct a as [x | [x | | |]]; unfold lb in L; cbn [as_double lbd] in L;
    try contradiction.
  - assert (B : lbd l (round_to_double (inject_Z x / (2 # 1))))
      by (apply round_to_double_lb; [exact D | apply half_ge; exact L]).
    destruct (round_to_double (inject_Z x / (2 # 1))); inversion E; subst.
    exact B.
  - inversion E; subst. unfold lb. cbn [as_double].
    apply round_to_double_lb; [exact D | apply half_ge; exact L].
  - inversion E; subst. exact I.
Qed.

Lemma halve_returns a l h :
  dpoint l -> dpoint h -> lb (l + l) a -> ub (h + h) a ->
  exists r, truediv a (Int 2) = Return r.
Proof.
  intros Dl Dh L U. rewrite truediv_2.
  destruct a as [x | [x | | |]]; try (eexists; reflexivity).
  unfold lb, ub in *. cbn [as_double lbd ubd] in *.
  assert (A : lbd l (round_to_double (inject_Z x / (2 # 1))))
    by (apply round_to_double_lb; [exact Dl | apply half_ge; exact L]).
  assert (B : ubd h (round_to_double (inject_Z x / (2 # 1))))
    by (apply round_to_double_ub; [exact Dh | apply half_le; exact U]).
  destruct (within_finite _ _ _ A B) as (r & -> & _).
  eexists. reflexivity.
Qed.

(** [round]. *)
Lemma round_Return a r : round a = Return r -> exists z, r = Int z.
Proof.
  destruct a as [z | [q | | |]]; cbn [round]; intros E; inversion E;
    eexists; reflexivity.
Qed.

Lemma round_ub a hi z :
  ub (inject_Z hi) a -> round a = Return (Int z) -> (z <= hi)%Z.
Proof.
  intros U E. destruct a as [x | [q | | |]]; cbn [round] in E;
    inversion E; subst; unfold ub in U; cbn [as_double ubd] in U.
  - rewrite Zle_Qle. exact U.
  - apply round_half_even_upper. exact U.
Qed.

Lemma round_lb a lo z :
  lb (inject_Z lo) a -> round a = Return (Int z) -> (lo <= z)%Z.
Proof.
  intros L E. destruct a as [x | [q | | |]]; cbn [round] in E;
    inversion E; subst; unfold lb in L; cbn [as_double lbd] in L.
  - rewrite Zle_Qle. exact L.
  - apply round_half_even_lower. exact L.
Qed.

Lemma round_returns a lo hi :
  lb lo a -> ub hi a -> exists r, round a = Return r.
Proof.
  intros L U. destruct a as [x | [q | | |]]; unfold lb, ub in *;
    cbn [as_double lbd ubd] in *; try contradiction;
    eexists; reflexivity.
Qed.

(** [min] against an [int]. *)
Lemma min_Int_ub a m : as_double a <> NaN -> ub (inject_Z m) (min a (Int m)).
Proof.
  intros N. unfold min, lt, cmp. cbn [as_double].
  destruct a as [x | [q | | |]]; cbn [as_double cmp_double] in *;
    try (exfalso; apply N; reflexivity).
  - destruct (Qcompare_spec (inject_Z m) (inject_Z x)) as [E | L | G];
      unfold ub; cbn [as_double ubd]; lra.
  - destruct (Qcompare_spec (inject_Z m) q) as [E | L | G];
      unfold ub; cbn [as_double ubd]; lra.
  - unfold ub. cbn [as_double ubd]. lra.
  - exact I.
Qed.

Lemma min_Int_lb a m lo :
  lb lo a -> lo <= inject_Z m -> lb lo (min a (Int m)).
Proof.
  intros L M. unfold min. destruct (lt (Int m) a); [exact M | exact L].
Qed.

Lemma min_Int_Int x m : min (Int x) (Int m) = Int (Z.min x m).
Proof.
  unfold min, lt, cmp. cbn [as_double cmp_double].
  unfold Qcompare. cbn [Qnum Qden inject_Z]. rewrite !Z.mul_1_r.
  destruct (Z.compare_spec m x); f_equal; lia.
Qed.

(** Products of an [int] and a float literal. *)
Lemma mul_Int_Float c k r :
  mul (Int c) (Float (Finite k)) = Return r ->
  exists x,
    float_of_int c = Return (Finite x)
    /\ r = Float (round_to_double (x * k)).
Proof.
  intros E. cbn [mul to_double] in E. unbind E as (d, Hd).
  destruct (float_of_int_Finite _ _ Hd) as (x & ->).
  cbn [bind fmul] in E. inversion E; subst.
  exists x. split; [exact Hd | reflexivity].
Qed.

Lemma mul_Int_Float_not_nan c k r :
  mul (Int c) (Float (Finite k)) = Return r -> as_double r <> NaN.
Proof.
  intros E. destruct (mul_Int_Float _ _ _ E) as (x & _ & ->).
  cbn [as_double]. apply round_to_double_not_nan.
Qed.

Lemma mul_Int_Float_lb c k r :
  (0 <= c)%Z -> 0 <= k -> mul (Int c) (Float (Finite k)) = Return r ->
  lb 0 r.
Proof.
  intros Hc Hk E. destruct (mul_Int_Float _ _ _ E) as (x & Hx & ->).
  assert (L : lbd 0 (Finite x)).
  { eapply float_of_int_lb; [apply dpoint_0 | | exact Hx].
    change 0 with (inject_Z 0). rewrite <- Zle_Qle. exact Hc. }
  cbn [lbd] in L. unfold lb. cbn [as_double].
  apply round_to_double_lb; [apply dpoint_0 |].
  apply Qmult_le_0_compat; assumption.
Qed.

Lemma mul_Int_Float_returns c k :
  (- dbl_max <= c <= dbl_max)%Z ->
  exists r, mul (Int c) (Float (Finite k)) = Return r.
Proof.
  intros Hc.
  destruct (float_of_int_returns c (- inject_Z dbl_max) (inject_Z dbl_max))
    as (x & Ex & _).
  - apply dpoint_opp, dpoint_dbl_max.
  - apply dpoint_dbl_max.
  - rewrite <- inject_Z_opp, <- Zle_Qle. lia.
  - rewrite <- Zle_Qle. lia.
  - cbn [mul to_double]. rewrite Ex. cbn [bind]. eexists. reflexivity.
Qed.

(** The float literals of the two estimators. *)
Lemma float_lit_0_1 :
  float_lit (1 # 10) = Finite (3602879701896397 # 36028797018963968).
Proof. vm_compute. reflexivity. Qed.

Lemma float_lit_1_5 : float_lit (3 # 2) = Finite (3 # 2).
Proof. vm_compute. reflexivity. Qed.

Lemma float_lit_0_9 :
  float_lit (9 # 10) = Finite (8106479329266893 # 9007199254740992).
Proof. vm_compute. reflexivity. Qed.

(** Comparisons read off the bounds. *)
Lemma le_of_ub n hi : ub (inject_Z hi) n -> le n (Int hi) = true.
Proof.
  unfold ub, le, cmp. cbn [as_double].
  destruct (as_double n) as [q | | |]; cbn [ubd cmp_double];
    try contradiction; [| reflexivity].
  intros U. destruct (Qcompare_spec q (inject_Z hi)); try reflexivity. lra.
Qed.

Lemma le_of_lb n lo : lb (inject_Z lo) n -> le (Int lo) n = true.
Proof.
  unfold lb, le, cmp. cbn [as_double].
  destruct (as_double n) as [q | | |]; cbn [lbd cmp_double];
    try contradiction; [| reflexivity].
  intros U. destruct (Qcompare_spec (inject_Z lo) q); try reflexivity. lra.
Qed.

End NumFacts.

(** ** The adaptive shot estimators *)

Section ShotFacts.
Local Open Scope Q_scope.

Variables c t base top : Z.

Local Notation "'room'" := (top - base)%Z.
Local Notation "'tenth'" := (3602879701896397 # 36028797018963968).

Lemma not_confident_0_9 :
  gt (Float (float_lit (9 # 10))) (Float (float_lit (9 # 10))) = false.
Proof. vm_compute. reflexivity. Qed.

(** The steps of the default branch of [BB84Protocol]. *)
Lemma bb84_default_steps r :
  BB84.additional_shots_default c t base top = Return r
  <-> exists scaled total mean,
        mul (Int t) (Float (Finite tenth)) = Return scaled
        /\ add (Int (Z.min (c * 5) room)) (min scaled (Int room))
           = Return total
        /\ truediv total (Int 2) = Return mean
        /\ round mean = Return r.
Proof.
  unfold BB84.additional_shots_default. rewrite float_lit_0_1.
  change (mul (Int c) (Int 5)) with (Return (Int (c * 5))).
  change (sub (Int top) (Int base)) with (Return (Int room)).
  cbn [bind]. rewrite min_Int_Int. split.
  - intros E. unbind E as (scaled, Hs). unbind E as (total, Ht).
    unbind E as (mean, Hm). exists scaled, total, mean. tauto.
  - intros (scaled & total & mean & Hs & Ht & Hm & Hr).
    rewrite Hs. cbn [bind]. rewrite Ht. cbn [bind]. rewrite Hm. exact Hr.
Qed.

Lemma dpoint_room : (- 2 ^ 53 < room < 2 ^ 53)%Z -> dpoint (inject_Z room).
Proof. apply dpoint_Z. Qed.

Lemma ub_min_room x : ub (inject_Z room) (Int (Z.min x room)).
Proof.
  unfold ub. cbn [as_double ubd]. rewrite <- Zle_Qle. lia.
Qed.

Lemma lb_min_room x :
  (0 <= x)%Z -> (0 <= room)%Z -> lb 0 (Int (Z.min x room)).
Proof.
  intros Hx Hr. unfold lb. cbn [as_double lbd].
  change 0 with (inject_Z 0). rewrite <- Zle_Qle. lia.
Qed.

Lemma lb_0_room : (0 <= room)%Z -> 0 <= inject_Z room.
Proof.
  intros Hr. change 0 with (inject_Z 0). rewrite <- Zle_Qle. exact Hr.
Qed.

(** The default additional term of [BB84Protocol] is an [int] that
    does not exceed [max_shots - base_shots], as long as that fits in a
    double. *)
Lemma bb84_default_cap r :
  (- 2 ^ 53 < room < 2 ^ 53)%Z ->
  BB84.additional_shots_default c t base top = Return r ->
  exists z, r = Int z /\ (z <= room)%Z.
Proof.
  intros Hr E. apply bb84_default_steps in E.
  destruct E as (scaled & total & mean & Hs & Ht & Hm & E).
  destruct (round_Return _ _ E) as (z & ->). exists z.
  split; [reflexivity |].
  apply (round_ub mean); [| exact E].
  apply (halve_ub total); [apply dpoint_room; exact Hr | | exact Hm].
  eapply add_ub; [| | | | | exact Ht];
    try (apply dpoint_room; exact Hr).
  - apply dpoint_double. exact Hr.
  - apply ub_min_room.
  - apply min_Int_ub. eapply mul_Int_Float_not_nan. exact Hs.
Qed.

Lemma bb84_default_nonneg r :
  (0 <= c)%Z -> (0 <= t)%Z -> (0 <= room)%Z ->
  BB84.additional_shots_default c t base top = Return r ->
  exists z, r = Int z /\ (0 <= z)%Z.
Proof.
  intros Hc Ht' Hr E. apply bb84_default_steps in E.
  destruct E as (scaled & total & mean & Hs & Ht & Hm & E).
  destruct (round_Return _ _ E) as (z & ->). exists z.
  split; [reflexivity |].
  apply (round_lb mean); [| exact E].
  apply (halve_lb total); [apply dpoint_0 | | exact Hm].
  eapply add_lb; [| | | | | exact Ht]; try apply dpoint_0.
  - apply lb_min_room; lia.
  - apply min_Int_lb; [| apply lb_0_room; exact Hr].
    eapply mul_Int_Float_lb; [exact Ht' | | exact Hs].
    unfold Qle. cbn. lia.
Qed.

Lemma bb84_default_returns :
  (0 <= c)%Z -> (0 <= t <= dbl_max)%Z -> (0 <= room < 2 ^ 53)%Z ->
  exists r, BB84.additional_shots_default c t base top = Return r.
Proof.
  intros Hc Ht Hr.
  assert (Dr : dpoint (inject_Z room)) by (apply dpoint_room; lia).
  assert (D2 : dpoint (inject_Z room + inject_Z room))
    by (apply dpoint_double; lia).
  assert (D0 : dpoint (0 + 0)) by (apply (dpoint_double 0); lia).
  destruct (mul_Int_Float_returns t tenth) as (scaled & Hs);
    [unfold dbl_max in *; lia |].
  assert (La : lb 0 (Int (Z.min (c * 5) room)))
    by (apply lb_min_room; lia).
  assert (Ua : ub (inject_Z room) (Int (Z.min (c * 5) room)))
    by apply ub_min_room.
  assert (Lb : lb 0 (min scaled (Int room))).
  { apply min_Int_lb; [| apply lb_0_room; lia].
    eapply mul_Int_Float_lb; [| | exact Hs]; [lia |].
    unfold Qle. cbn. lia. }
  assert (Ub : ub (inject_Z room) (min scaled (Int room))).
  { apply min_Int_ub. eapply mul_Int_Float_not_nan. exact Hs. }
  destruct (add_returns _ _ 0 (inject_Z room) 0 (inject_Z room)
              dpoint_0 Dr dpoint_0 Dr La Ua Lb Ub) as (total & Ht').
  assert (Lt' : lb (0 + 0) total)
    by (eapply add_lb; [| | | | | exact Ht'];
        solve [apply dpoint_0 | exact D0 | exact La | exact Lb]).
  assert (Ut : ub (inject_Z room + inject_Z room) total)
    by (eapply add_ub; [| | | | | exact Ht'];
        solve [exact Dr | exact D2 | exact Ua | exact Ub]).
  destruct (halve_returns total 0 (inject_Z room) dpoint_0 Dr Lt' Ut)
    as (mean & Hm).
  assert (Lm : lb 0 mean)
    by (apply (halve_lb total); assumption || exact dpoint_0).
  assert (Um : ub (inject_Z room) mean)
    by (apply (halve_ub total); assumption).
  destruct (round_returns mean _ _ Lm Um) as (r & E).
  exists r. apply bb84_default_steps.
  exists scaled, total, mean. tauto.
Qed.

(** The additional term of the confident branch of both classes. *)
Lemma confident_cap scaled :
  mul (Int c) (Float (Finite (3 # 2))) = Return scaled ->
  ub (inject_Z room) (min scaled (Int room)).
Proof.
  intros E. apply min_Int_ub. eapply mul_Int_Float_not_nan. exact E.
Qed.

Lemma confident_nonneg scaled :
  (0 <= c)%Z -> (0 <= room)%Z ->
  mul (Int c) (Float (Finite (3 # 2))) = Return scaled ->
  lb 0 (min scaled (Int room)).
Proof.
  intros Hc Hr E. apply min_Int_lb; [| apply lb_0_room; exact Hr].
  eapply mul_Int_Float_lb; [exact Hc | | exact E]. unfold Qle. cbn. lia.
Qed.

Lemma bb84_confident_steps r :
  BB84.additional_shots_confident c base top = Return r
  <-> exists scaled,
        mul (Int c) (Float (Finite (3 # 2))) = Return scaled
        /\ r = min scaled (Int room).
Proof.
  unfold BB84.additional_shots_confident. rewrite float_lit_1_5.
  change (sub (Int top) (Int base)) with (Return (Int room)). split.
  - intros E. unbind E as (scaled, Hs). cbn [bind] in E.
    inversion E; subst. exists scaled. tauto.
  - intros (scaled & Hs & ->). rewrite Hs. reflexivity.
Qed.

(** [BB84.additional_shots], branch by branch. *)
Lemma bb84_additional_steps conf r :
  BB84.additional_shots c t conf base top = Return r
  <-> exists r0,
        BB84.additional_shots_default c t base top = Return r0
        /\ if gt (Float conf) (Float (float_lit (9 # 10)))
           then BB84.additional_shots_confident c base top = Return r
           else r = r0.
Proof.
  unfold BB84.additional_shots. split.
  - intros E. unbind E as (r0, H0). exists r0. split; [exact H0 |].
    destruct (gt (Float conf) (Float (float_lit (9 # 10))));
      [exact E | inversion E; reflexivity].
  - intros (r0 & H0 & E). rewrite H0. cbn [bind].
    destruct (gt (Float conf) (Float (float_lit (9 # 10))));
      [exact E | subst; reflexivity].
Qed.

Lemma bb84_additional_cap conf r :
  (- 2 ^ 53 < room < 2 ^ 53)%Z ->
  BB84.additional_shots c t conf base top = Return r ->
  ub (inject_Z room) r.
Proof.
  intros Hr E. apply bb84_additional_steps in E.
  destruct E as (r0 & H0 & E).
  destruct (gt (Float conf) (Float (float_lit (9 # 10)))).
  - apply bb84_confident_steps in E. destruct E as (scaled & Hs & ->).
    apply confident_cap. exact Hs.
  - subst r0. destruct (bb84_default_cap r Hr H0) as (z & -> & Hz).
    unfold ub. cbn [as_double ubd]. rewrite <- Zle_Qle. exact Hz.
Qed.

Lemma bb84_additional_nonneg conf r :
  (0 <= c)%Z -> (0 <= t)%Z -> (0 <= room)%Z ->
  BB84.additional_shots c t conf base top = Return r ->
  lb 0 r.
Proof.
  intros Hc Ht Hr E. apply bb84_additional_steps in E.
  destruct E as (r0 & H0 & E).
  destruct (gt (Float conf) (Float (float_lit (9 # 10)))).
  - apply bb84_confident_steps in E. destruct E as (scaled & Hs & ->).
    apply confident_nonneg; assumption.
  - subst r0. destruct (bb84_default_nonneg r Hc Ht Hr H0) as (z & -> & Hz).
    unfold lb. cbn [as_double lbd].
    change 0 with (inject_Z 0). rewrite <- Zle_Qle. exact Hz.
Qed.

Lemma bb84_additional_returns conf :
  (0 <= c <= dbl_max)%Z -> (0 <= t <= dbl_max)%Z ->
  (0 <= room < 2 ^ 53)%Z ->
  exists r, BB84.additional_shots c t conf base top = Return r.
Proof.
  intros Hc Ht Hr.
  destruct (bb84_default_returns) as (r0 & H0); [lia | exact Ht | exact Hr |].
  destruct (gt (Float conf) (Float (float_lit (9 # 10)))) eqn:G.
  - destruct (mul_Int_Float_returns c (3 # 2)) as (scaled & Hs);
      [unfold dbl_max in *; lia |].
    exists (min scaled (Int room)). apply bb84_additional_steps.
    exists r0. split; [exact H0 |]. rewrite G.
    apply bb84_confident_steps. exists scaled. tauto.
  - exists r0. apply bb84_additional_steps. exists r0.
    split; [exact H0 |]. rewrite G. reflexivity.
Qed.

(** [Teleporter.additional_shots], branch by branch. *)
Lemma teleporter_additional_steps conf r :
  Teleporter.additional_shots c conf base top = Return r
  <-> if gt (Float conf) (Float (float_lit (9 # 10)))
      then exists scaled,
             mul (Int c) (Float (Finite (3 # 2))) = Return scaled
             /\ r = min scaled (Int room)
      else r = Int (Z.min (c * 5) room).
Proof.
  unfold Teleporter.additional_shots. rewrite float_lit_1_5.
  change (mul (Int c) (Int 5)) with (Return (Int (c * 5))).
  change (sub (Int top) (Int base)) with (Return (Int room)).
  cbn [bind]. rewrite min_Int_Int.
  destruct (gt (Float conf) (Float (float_lit (9 # 10)))).
  - split.
    + intros E. unbind E as (scaled, Hs). inversion E; subst.
      exists scaled. tauto.
    + intros (scaled & Hs & ->). rewrite Hs. reflexivity.
  - split; intros E; [inversion E | subst]; reflexivity.
Qed.

Lemma teleporter_additional_cap conf r :
  Teleporter.additional_shots c conf base top = Return r ->
  ub (inject_Z room) r.
Proof.
  intros E. apply teleporter_additional_steps in E.
  destruct (gt (Float conf) (Float (float_lit (9 # 10)))).
  - destruct E as (scaled & Hs & ->). apply confident_cap. exact Hs.
  - subst r. apply ub_min_room.
Qed.

Lemma teleporter_additional_nonneg conf r :
  (0 <= c)%Z -> (0 <= room)%Z ->
  Teleporter.additional_shots c conf base top = Return r ->
  lb 0 r.
Proof.
  intros Hc Hr E. apply teleporter_additional_steps in E.
  destruct (gt (Float conf) (Float (float_lit (9 # 10)))).
  - destruct E as (scaled & Hs & ->). apply confident_nonneg; assumption.
  - subst r. apply lb_min_room; lia.
Qed.

Lemma teleporter_additional_returns conf :
  (- dbl_max <= c <= dbl_max)%Z ->
  exists r, Teleporter.additional_shots c conf base top = Return r.
Proof.
  intros Hc.
  destruct (gt (Float conf) (Float (float_lit (9 # 10)))) eqn:G.
  - destruct (mul_Int_Float_returns c (3 # 2) Hc) as (scaled & Hs).
    exists (min scaled (Int room)). apply teleporter_additional_steps.
    rewrite G. exists scaled. tauto.
  - eexists. apply teleporter_additional_steps. rewrite G. reflexivity.
Qed.

(** [base_shots + additional_shots] for an additional term between [0]
    and [max_shots - base_shots]. *)
Lemma base_plus_additional extra :
  (- 2 ^ 53 < base)%Z -> (base <= top)%Z -> (top < 2 ^ 53)%Z ->
  (top - base < 2 ^ 53)%Z ->
  lb 0 extra -> ub (inject_Z room) extra ->
  exists r,
    add (Int base) extra = Return r
    /\ le (Int base) r = true /\ le r (Int top) = true.
Proof.
  intros Hb Hbt Ht Hr L U.
  assert (Db : dpoint (inject_Z base)) by (apply dpoint_Z; lia).
  assert (Dt : dpoint (inject_Z top)) by (apply dpoint_Z; lia).
  assert (Dr : dpoint (inject_Z room)) by (apply dpoint_Z; lia).
  assert (Bb : lb (inject_Z base) (Int base) /\ ub (inject_Z base) (Int base)).
  { unfold lb, ub. cbn [as_double lbd ubd]. split; apply Qle_refl. }
  destruct Bb as (Lb & Ub).
  destruct (add_returns (Int base) extra _ _ _ _ Db Db dpoint_0 Dr
              Lb Ub L U) as (r & E).
  exists r. split; [exact E |]. split.
  - apply le_of_lb.
    assert (A : lb (inject_Z base + 0) r).
    { apply (add_lb (Int base) extra); try assumption; [apply dpoint_0 |].
      apply (dpoint_Proper (inject_Z base)); [ring | exact Db]. }
    unfold lb in *. revert A. apply lbd_mono. lra.
  - apply le_of_ub.
    assert (A : ub (inject_Z base + inject_Z room) r).
    { apply (add_ub (Int base) extra); try assumption.
      apply (dpoint_Proper (inject_Z top)); [| exact Dt].
      rewrite <- inject_Z_plus. f_equiv. lia. }
    unfold ub in *. revert A. apply ubd_mono.
    rewrite <- inject_Z_plus, <- Zle_Qle. lia.
Qed.

End ShotFacts.

Section ShotTheorems.
Local Open Scope Q_scope.

Lemma gt_confidence_compat q q' threshold :
  q' == q ->
  gt (Float (Finite q')) (Float threshold)
  = gt (Float (Finite q)) (Float threshold).
Proof.
  intros E. unfold gt, cmp. cbn [as_double].
  destruct threshold as [x | | |]; cbn [cmp_double]; try reflexivity.
  rewrite E. reflexivity.
Qed.

(** The test [confidence_level > 0.90], on the double [0.90]. *)
Lemma gt_0_9_spec conf :
  gt (Float conf) (Float (float_lit (9 # 10))) = true
  <-> match conf with
      | Finite q => 8106479329266893 # 9007199254740992 < q
      | PosInf => True
      | _ => False
      end.
Proof.
  rewrite float_lit_0_9. unfold gt, cmp. cbn [as_double].
  destruct conf as [q | | |]; cbn [cmp_double];
    try (split; [discriminate | contradiction]);
    [| split; [exact (fun _ => I) | reflexivity]].
  destruct (Qcompare_spec q (8106479329266893 # 9007199254740992))
    as [E | L | G]; split; try discriminate; try reflexivity; intros A.
  - rewrite E in A. exfalso. exact (Qlt_irrefl _ A).
  - exfalso. exact (Qlt_irrefl _ (Qlt_trans _ _ _ A L)).
  - exact G.
Qed.

(** C2 (the code outside the range).  Beyond [2^53] floats no longer
    hold every [int]:
    [BB84Protocol.calculate_adaptive_shots(10**30, 10**30, 0.9, 0,
    2**53 + 3)] is [2**53 + 4], above [max_shots]: both capped terms are
    [2**53 + 3], their sum is rounded to a double and so is its half.
    [QuantumDataTeleporter.calculate_adaptive_shots(0, 0.95, 2**53 + 1,
    2**54)] is the float [2.0**53], below [base_shots]: [base_shots +
    0.0] is rounded to a double. *)
Lemma adaptive_shots_out_of_range :
  BB84.calculate_adaptive_shots
    (10 ^ 30) (10 ^ 30) (float_lit (9 # 10)) 0 (2 ^ 53 + 3)
  = Return (Int (2 ^ 53 + 4))
  /\ le (Int (2 ^ 53 + 4)) (Int (2 ^ 53 + 3)) = false
  /\ Teleporter.calculate_adaptive_shots
       0 (float_lit (95 # 100)) (2 ^ 53 + 1) (2 ^ 54)
     = Return (Float (Finite (inject_Z (2 ^ 53))))
  /\ le (Int (2 ^ 53 + 1)) (Float (Finite (inject_Z (2 ^ 53)))) = false.
Proof. vm_compute. repeat split; reflexivity. Qed.

(** C2 (amended).  For [circuit_complexity] and [text_length] between
    [0] and the largest double, every [confidence_level], and
    [base_shots <= max_shots] both below [2^53] in magnitude and less
    than [2^53] apart, both [calculate_adaptive_shots] return a value, and
    it is at least [base_shots] and at most [max_shots].  The value is
    a function of the arguments alone: the confidence level matters only
    through the number it denotes. *)
Theorem adaptive_shots_within_range :
  forall (circuit_complexity text_length : Z) (confidence_level : double)
         (base_shots max_shots : Z),
    (0 <= circuit_complexity <= dbl_max)%Z ->
    (0 <= text_length <= dbl_max)%Z ->
    (- 2 ^ 53 < base_shots)%Z ->
    (base_shots <= max_shots)%Z ->
    (max_shots < 2 ^ 53)%Z ->
    (max_shots - base_shots < 2 ^ 53)%Z ->
    (exists shots,
        BB84.calculate_adaptive_shots
          circuit_complexity text_length confidence_level
          base_shots max_shots = Return shots
        /\ le (Int base_shots) shots = true
        /\ le shots (Int max_shots) = true)
    /\ (exists shots,
           Teleporter.calculate_adaptive_shots
             circuit_complexity confidence_level base_shots max_shots
           = Return shots
           /\ le (Int base_shots) shots = true
           /\ le shots (Int max_shots) = true)
    /\ (forall q q',
           confidence_level = Finite q -> q' == q ->
           BB84.calculate_adaptive_shots
             circuit_complexity text_length (Finite q')
             base_shots max_shots
           = BB84.calculate_adaptive_shots
               circuit_complexity text_length confidence_level
               base_shots max_shots
           /\ Teleporter.calculate_adaptive_shots
                circuit_complexity (Finite q') base_shots max_shots
              = Teleporter.calculate_adaptive_shots
                  circuit_complexity confidence_level
                  base_shots max_shots).
Proof.
  intros c t conf base top Hc Ht Hb Hbt Htop Hr. split; [| split].
  - destruct (bb84_additional_returns c t base top conf)
      as (extra & E); [exact Hc | exact Ht | lia |].
    unfold BB84.calculate_adaptive_shots. rewrite E. cbn [bind].
    apply base_plus_additional; try assumption.
    + eapply bb84_additional_nonneg; [| | | exact E]; lia.
    + eapply bb84_additional_cap; [| exact E]. lia.
  - destruct (teleporter_additional_returns c base top conf)
      as (extra & E); [lia |].
    unfold Teleporter.calculate_adaptive_shots. rewrite E. cbn [bind].
    apply base_plus_additional; try assumption.
    + eapply teleporter_additional_nonneg; [| | exact E]; lia.
    + eapply teleporter_additional_cap. exact E.
  - intros q q' -> E. split.
    + unfold BB84.calculate_adaptive_shots, BB84.additional_shots.
      rewrite (gt_confidence_compat _ _ _ E). reflexivity.
    + unfold Teleporter.calculate_adaptive_shots,
        Teleporter.additional_shots.
      rewrite (gt_confidence_compat _ _ _ E). reflexivity.
Qed.

Lemma adaptive_shots_within_range_witness :
  (exists shots,
      BB84.calculate_adaptive_shots 16 16 (float_lit (9 # 10)) 250 4096
      = Return shots
      /\ le (Int 250) shots = true /\ le shots (Int 4096) = true)
  /\ (exists shots,
         Teleporter.calculate_adaptive_shots 16 (float_lit (95 # 100)) 0 5
         = Return shots
         /\ le (Int 0) shots = true /\ le shots (Int 5) = true).
Proof.
  split.
  - apply (adaptive_shots_within_range 16 16 (float_lit (9 # 10)) 250 4096);
      unfold dbl_max; lia.
  - apply (adaptive_shots_within_range 16 16 (float_lit (95 # 100)) 0 5);
      unfold dbl_max; lia.
Defined.

(** C3 (the code above the cap).  In
    [BB84Protocol.calculate_adaptive_shots(10**30, 10**30, 0.9, 0,
    2**53 + 3)] the additional term is [2**53 + 4] and exceeds
    [max_shots - base_shots = 2**53 + 3]: each of the two terms is capped,
    but the rounded mean of the two caps is computed in floats. *)
Lemma bb84_additional_shots_above_cap :
  BB84.additional_shots
    (10 ^ 30) (10 ^ 30) (float_lit (9 # 10)) 0 (2 ^ 53 + 3)
  = Return (Int (2 ^ 53 + 4))
  /\ add (Int 0) (Int (2 ^ 53 + 4))
     = BB84.calculate_adaptive_shots
         (10 ^ 30) (10 ^ 30) (float_lit (9 # 10)) 0 (2 ^ 53 + 3)
  /\ le (Int (2 ^ 53 + 4)) (Int (2 ^ 53 + 3 - 0)) = false.
Proof. vm_compute. repeat split; reflexivity. Qed.

(** C3 (amended).  When [max_shots - base_shots] is below [2^53] in
    magnitude, a shot count returned by
    [BB84Protocol.calculate_adaptive_shots] is [base_shots] plus an
    additional term that does not exceed [max_shots - base_shots].  The
    test [confidence_level > 0.90] succeeds exactly on the doubles above
    the double [0.90], which is [8106479329266893 / 2^53].  When it
    succeeds the additional term is
    [min(circuit_complexity * 1.5, max_shots - base_shots)]; when it
    fails the additional term is the rounded half of the sum of
    [min(circuit_complexity * 5, max_shots - base_shots)] and
    [min(text_length * 0.1, max_shots - base_shots)]. *)
Theorem bb84_adaptive_shots_structure :
  forall (circuit_complexity text_length : Z) (confidence_level : double)
         (base_shots max_shots : Z) (shots : num),
    (- 2 ^ 53 < max_shots - base_shots < 2 ^ 53)%Z ->
    BB84.calculate_adaptive_shots
      circuit_complexity text_length confidence_level base_shots max_shots
    = Return shots ->
    let room := Int (max_shots - base_shots) in
    let exceeds :=
      gt (Float confidence_level) (Float (float_lit (9 # 10))) in
    (exceeds = true
     <-> match confidence_level with
         | Finite q => 8106479329266893 # 9007199254740992 < q
         | PosInf => True
         | _ => False
         end)
    /\ exists extra,
         add (Int base_shots) extra = Return shots
         /\ le extra room = true
         /\ (exceeds = true ->
             exists scaled,
               mul (Int circuit_complexity) (Float (float_lit (3 # 2)))
               = Return scaled
               /\ extra = min scaled room)
         /\ (exceeds = false ->
             exists scaled total mean,
               mul (Int text_length) (Float (float_lit (1 # 10)))
               = Return scaled
               /\ add (min (Int (circuit_complexity * 5)) room)
                      (min scaled room)
                  = Return total
               /\ truediv total (Int 2) = Return mean
               /\ round mean = Return extra).
Proof.
  intros c t conf base top r Hr E room exceeds. subst room exceeds.
  split; [apply gt_0_9_spec |].
  unfold BB84.calculate_adaptive_shots in E. unbind E as (extra, He).
  exists extra. split; [exact E |]. split.
  - apply le_of_ub. eapply bb84_additional_cap; [exact Hr | exact He].
  - apply bb84_additional_steps in He. destruct He as (r0 & H0 & Hb).
    destruct (gt (Float conf) (Float (float_lit (9 # 10)))).
    + split; [intros _ | discriminate].
      apply bb84_confident_steps in Hb. rewrite float_lit_1_5. exact Hb.
    + split; [discriminate | intros _]. subst r0.
      apply bb84_default_steps in H0.
      rewrite float_lit_0_1, min_Int_Int. exact H0.
Qed.

Lemma bb84_adaptive_shots_structure_witness :
  BB84.calculate_adaptive_shots 16 16 (float_lit (9 # 10)) 250 4096
  = Return (Int 291)
  /\ exists extra,
       add (Int 250) extra = Return (Int 291)
       /\ le extra (Int (4096 - 250)) = true.
Proof.
  assert (E : BB84.calculate_adaptive_shots
                16 16 (float_lit (9 # 10)) 250 4096
              = Return (Int 291)) by (vm_compute; reflexivity).
  split; [exact E |].
  destruct (bb84_adaptive_shots_structure
              16 16 (float_lit (9 # 10)) 250 4096 (Int 291)
              ltac:(lia) E)
    as (_ & extra & A & B & _).
  exists extra. split; [exact A | exact B].
Defined.

(** C4 (the code at the failing input).  With [confidence_level = 0.95]
    and [circuit_complexity = 1] both estimators return a float that is
    no whole number: [251.5] for [BB84Protocol] and [1.5] for
    [QuantumDataTeleporter] with their default bounds; neither compares
    equal to any [int]. *)
Theorem adaptive_shots_confident_branch_not_integer :
  BB84.calculate_adaptive_shots 1 0 (float_lit (95 # 100)) 250 4096
  = Return (Float (Finite (503 # 2)))
  /\ Teleporter.calculate_adaptive_shots 1 (float_lit (95 # 100)) 0 5
     = Return (Float (Finite (3 # 2)))
  /\ (forall n : Z, eq (Float (Finite (503 # 2))) (Int n) = false)
  /\ (forall n : Z, eq (Float (Finite (3 # 2))) (Int n) = false)
  /\ (forall n : Z,
        BB84.calculate_adaptive_shots 1 0 (float_lit (95 # 100)) 250 4096
        <> Return (Int n))
  /\ (forall n : Z,
        Teleporter.calculate_adaptive_shots 1 (float_lit (95 # 100)) 0 5
        <> Return (Int n)).
Proof.
  assert (B : BB84.calculate_adaptive_shots
                1 0 (float_lit (95 # 100)) 250 4096
              = Return (Float (Finite (503 # 2))))
    by (vm_compute; reflexivity).
  assert (T : Teleporter.calculate_adaptive_shots
                1 (float_lit (95 # 100)) 0 5
              = Return (Float (Finite (3 # 2))))
    by (vm_compute; reflexivity).
  rewrite B, T. split; [reflexivity |]. split; [reflexivity |].
  split; [| split; [| split; discriminate]].
  - intros n. unfold eq, cmp. cbn [as_double cmp_double].
    destruct (Qcompare_spec (503 # 2) (inject_Z n)) as [E | L | G];
      try reflexivity.
    unfold Qeq in E. cbn [Qnum Qden inject_Z] in E. lia.
  - intros n. unfold eq, cmp. cbn [as_double cmp_double].
    destruct (Qcompare_spec (3 # 2) (inject_Z n)) as [E | L | G];
      try reflexivity.
    unfold Qeq in E. cbn [Qnum Qden inject_Z] in E. lia.
Qed.

(** With the default arguments of [run_protocol] the estimator of
    [BB84Protocol] returns an [int] between 250 and 4096. *)
Lemma bb84_default_shots_range n :
  (0 <= n <= dbl_max)%Z ->
  exists z,
    BB84.default_shots n n = Return (Int z) /\ (250 <= z <= 4096)%Z.
Proof.
  intros Hn. unfold BB84.default_shots, BB84.calculate_adaptive_shots.
  destruct (bb84_additional_returns n n 250 4096 (float_lit (9 # 10)))
    as (extra & E); [exact Hn | exact Hn | lia |].
  rewrite E. cbn [bind].
  apply bb84_additional_steps in E. destruct E as (r0 & H0 & Hb).
  rewrite not_confident_0_9 in Hb. subst r0.
  destruct (bb84_default_cap n n 250 4096 extra) as (z & -> & Hz);
    [lia | exact H0 |].
  destruct (bb84_default_nonneg n n 250 4096 (Int z)) as (z' & Ez & Hz');
    [lia | lia | lia | exact H0 |].
  inversion Ez; subst z'.
  exists (250 + z)%Z. split; [reflexivity | lia].
Qed.

(** With the default arguments of [run_simulation] the estimator of
    [QuantumDataTeleporter] returns [min(circuit_complexity * 5, 5)]. *)
Lemma teleporter_default_shots complexity :
  Teleporter.default_shots complexity
  = Return (Int (Z.min (complexity * 5) 5)).
Proof.
  unfold Teleporter.default_shots, Teleporter.calculate_adaptive_shots.
  assert (E : Teleporter.additional_shots
                complexity (float_lit (9 # 10)) 0 5
              = Return (Int (Z.min (complexity * 5) (5 - 0)))).
  { apply teleporter_additional_steps. rewrite not_confident_0_9.
    reflexivity. }
  rewrite E. reflexivity.
Qed.

End ShotTheorems.

(** ** Strings and byte chunks *)

Section ChunkFacts.

Lemma str_eqb_refl a : str_eqb a a = true.
Proof.
  induction a as [| c a IH]; simpl; [reflexivity |].
  rewrite N.eqb_refl. exact IH.
Qed.

Lemma str_eqb_eq a b : str_eqb a b = true <-> a = b.
Proof.
  split; [| intros ->; apply str_eqb_refl].
  revert b. induction a as [| c a IH]; intros [| d b]; simpl;
    try discriminate; [reflexivity |].
  intros E. apply andb_true_iff in E. destruct E as [E1 E2].
  apply N.eqb_eq in E1. subst d. f_equal. apply IH. exact E2.
Qed.

Lemma slice_8 x i : slice x i (i + 8) = firstn 8 (skipn i x).
Proof. unfold slice. f_equal. lia. Qed.

(** Cutting [m] blocks of eight from a string of at most [8 * m]
    characters and joining them gives the string back. *)
Lemma join_blocks m : forall x : str,
  length x <= 8 * m ->
  join (map (fun i => slice x i (i + 8)) (map (fun j => j * 8) (seq 0 m)))
  = x.
Proof.
  induction m as [| m IH]; intros x Hx.
  - destruct x; [reflexivity | simpl in Hx; lia].
  - rewrite <- cons_seq, <- seq_shift. rewrite !map_cons, !map_map.
    unfold join. rewrite concat_cons.
    rewrite slice_8. change (skipn (0 * 8) x) with x.
    transitivity (firstn 8 x ++ skipn 8 x); [| apply firstn_skipn].
    f_equal.
    etransitivity;
      [| apply (IH (skipn 8 x)); rewrite length_skipn; lia].
    unfold join. f_equal. rewrite map_map. apply map_ext. intros j.
    rewrite !slice_8, skipn_skipn. do 2 f_equal. lia.
Qed.

Lemma range_covers n : n <= 8 * ((n + 8 - 1) / 8).
Proof.
  pose proof (Nat.div_mod_eq (n + 8 - 1) 8).
  pose proof (Nat.mod_upper_bound (n + 8 - 1) 8). lia.
Qed.

Lemma join_chunks8 merged : join (chunks8 merged) = merged.
Proof. apply join_blocks, range_covers. Qed.

Lemma length_chunks8 merged k :
  length merged = 8 * k -> length (chunks8 merged) = k.
Proof.
  intros E. unfold chunks8, py_range. rewrite !length_map, length_seq, E.
  replace (8 * k + 8 - 1) with (7 + k * 8) by lia.
  rewrite Nat.div_add by lia. reflexivity.
Qed.

Lemma chunks8_width merged k :
  length merged = 8 * k ->
  Forall (fun chunk => length chunk = 8) (chunks8 merged).
Proof.
  intros E. apply Forall_forall. intros chunk Hin.
  pose proof (length_chunks8 merged k E) as Hk.
  unfold chunks8, py_range in *.
  apply in_map_iff in Hin. destruct Hin as (i & <- & Hi).
  apply in_map_iff in Hi. destruct Hi as (j & <- & Hj).
  apply in_seq in Hj. rewrite !length_map, length_seq in Hk.
  rewrite slice_8, length_firstn, length_skipn. lia.
Qed.

(** C5.  A bit string of length [8 * k] is split by the loop of
    [handle_flipped_results] (and the comprehension of [run_protocol])
    into [k] chunks of eight characters each, and joining the chunks
    gives the original string back. *)
Theorem byte_chunking_roundtrip :
  forall (k : nat) (merged : str),
    length merged = 8 * k ->
    join (chunks8 merged) = merged
    /\ length (chunks8 merged) = k
    /\ Forall (fun chunk => length chunk = 8) (chunks8 merged)
    /\ (forall flipped_results : list str,
          join flipped_results = merged ->
          join (Teleporter.handle_flipped_results flipped_results) = merged).
Proof.
  intros k merged E. repeat split.
  - apply join_chunks8.
  - apply length_chunks8. exact E.
  - apply (chunks8_width merged k E).
  - intros flipped <-. apply join_chunks8.
Qed.

Lemma byte_chunking_roundtrip_witness :
  join (chunks8 (str_lit "0100100001101001")) = str_lit "0100100001101001"
  /\ length (chunks8 (str_lit "0100100001101001")) = 2.
Proof.
  destruct (byte_chunking_roundtrip 2 (str_lit "0100100001101001") eq_refl)
    as (A & B & _).
  split; [exact A | exact B].
Defined.

End ChunkFacts.

(** ** The plurality vote *)

Section PluralityFacts.
Local Open Scope Z_scope.

Lemma max_from_spec cs : forall rest best,
  let res := max_from cs best rest in
  (res = best \/ In res rest)
  /\ count_of cs best <= count_of cs res
  /\ forall k, In k rest -> count_of cs k <= count_of cs res.
Proof.
  induction rest as [| k rest IH]; intros best; simpl.
  - split; [left; reflexivity |]. split; [lia |]. intros k [].
  - destruct (IH (if count_of cs best <? count_of cs k then k else best))
      as (Hin & Hbest & Hrest).
    destruct (Z.ltb_spec (count_of cs best) (count_of cs k)) as [L | G].
    + split.
      { right. destruct Hin as [-> | ?];
          [left; reflexivity | right; assumption]. }
      split; [lia |].
      intros k' [<- | Hk']; [exact Hbest | apply Hrest; exact Hk'].
    + split.
      { destruct Hin as [-> | ?];
          [left; reflexivity | right; right; assumption]. }
      split; [exact Hbest |].
      intros k' [<- | Hk']; [lia | apply Hrest; exact Hk'].
Qed.

Lemma py_max_plurality cs res : py_max cs = Return res -> plurality cs res.
Proof.
  unfold py_max, plurality. destruct (keys cs) as [| k ks] eqn:K;
    [discriminate |].
  intros E. injection E as <-.
  destruct (max_from_spec cs ks k) as (Hin & Hbest & Hrest).
  split.
  - destruct Hin as [-> | ?]; [left; reflexivity | right; assumption].
  - intros k' [<- | Hk']; [exact Hbest | apply Hrest; exact Hk'].
Qed.

Lemma py_max_total cs : cs <> [] -> exists res, py_max cs = Return res.
Proof.
  destruct cs as [| [k n] rest]; [congruence |].
  intros _. unfold py_max. simpl. eexists. reflexivity.
Qed.

(** What [BB84.run_protocol] records for each bit. *)
Lemma bb84_records_plurality sims noise shots :
  forall encoded_data i flipped_results,
    BB84.measure_all sims noise shots i encoded_data = Return flipped_results ->
    forall j bit,
      nth_error encoded_data j = Some bit ->
      exists res,
        nth_error flipped_results j = Some res
        /\ plurality
             ((if noise then aer_noisy sims else basic_aer sims)
                (i + j)%nat (BB84.bit_circuit bit) shots)
             res.
Proof.
  induction encoded_data as [| b rest IH]; intros i flipped E j bit Hj.
  - destruct j; discriminate.
  - simpl in E.
    unbind E as (res, Hres).
    unbind E as (tail, Htail).
    injection E as <-.
    destruct j as [| j]; simpl in Hj.
    + injection Hj as <-. exists res. split; [reflexivity |].
      rewrite Nat.add_0_r. apply py_max_plurality.
      destruct noise; exact Hres.
    + destruct (IH (S i) tail Htail j bit Hj) as (r & Hr & Hp).
      exists r. split; [exact Hr |].
      replace (i + S j)%nat with (S i + j)%nat by lia. exact Hp.
Qed.

(** What [Teleporter.run_simulation] records for each
    circuit: the flipped first character of the plurality outcome. *)
Lemma teleporter_records_plurality sims noise :
  forall cs i flipped_results,
    Teleporter.measure_all sims noise i cs = Return flipped_results ->
    forall j circuit,
      nth_error cs j = Some circuit ->
      exists c rest,
        nth_error flipped_results j = Some (bit_flipper [c])
        /\ plurality
             (if noise
              then aer_noisy sims (i + j)%nat circuit aer_default_shots
              else basic_aer sims (i + j)%nat circuit (Int 1))
             (c :: rest).
Proof.
  induction cs as [| cir cs IH]; intros i flipped E j circuit Hj.
  - destruct j; discriminate.
  - simpl in E.
    unbind E as (res, Hres).
    unbind E as (bit, Hbit).
    unbind E as (tail, Htail).
    injection E as <-.
    destruct j as [| j]; simpl in Hj.
    + injection Hj as <-.
      destruct res as [| c rest]; simpl in Hbit; [discriminate |].
      injection Hbit as <-. exists c, rest. split; [reflexivity |].
      rewrite Nat.add_0_r. apply py_max_plurality. exact Hres.
    + destruct (IH (S i) tail Htail j circuit Hj) as (c & rest & Hr & Hp).
      exists c, rest. split; [exact Hr |].
      replace (i + S j)%nat with (S i + j)%nat by lia. exact Hp.
Qed.

(** C7.  [max(counts, key=counts.get)] on a non-empty counts dictionary
    returns a key whose count is at least the count of every key; this
    is what [run_protocol] records for each bit, and what
    [run_simulation] takes the first character of (and flips) for each
    circuit. *)
Theorem recorded_outcome_is_plurality :
  (forall cs : counts,
      cs <> [] -> exists res, py_max cs = Return res /\ plurality cs res)
  /\ (forall sims noise shots encoded_data flipped_results,
        BB84.measure_all sims noise shots 0 encoded_data
        = Return flipped_results ->
        forall j bit,
          nth_error encoded_data j = Some bit ->
          exists res,
            nth_error flipped_results j = Some res
            /\ plurality
                 ((if noise then aer_noisy sims else basic_aer sims)
                    j (BB84.bit_circuit bit) shots)
                 res)
  /\ (forall sims noise cs flipped_results,
        Teleporter.measure_all sims noise 0 cs = Return flipped_results ->
        forall j circuit,
          nth_error cs j = Some circuit ->
          exists c rest,
            nth_error flipped_results j = Some (bit_flipper [c])
            /\ plurality
                 (if noise
                  then aer_noisy sims j circuit aer_default_shots
                  else basic_aer sims j circuit (Int 1))
                 (c :: rest)).
Proof.
  split; [| split].
  - intros cs Hne. destruct (py_max_total cs Hne) as (res & Hres).
    exists res. split; [exact Hres | apply py_max_plurality; exact Hres].
  - intros sims noise shots data flipped E j bit Hj.
    exact (bb84_records_plurality sims noise shots data 0 flipped E j bit Hj).
  - intros sims noise cs flipped E j circuit Hj.
    exact (teleporter_records_plurality sims noise cs 0 flipped E j circuit Hj).
Qed.

Lemma recorded_outcome_is_plurality_witness :
  exists res,
    py_max [(str_lit "0", 3); (str_lit "1", 5)] = Return res
    /\ plurality [(str_lit "0", 3); (str_lit "1", 5)] res.
Proof.
  apply (proj1 recorded_outcome_is_plurality
           [(str_lit "0", 3); (str_lit "1", 5)]).
  discriminate.
Defined.

End PluralityFacts.

(** ** Operand alignment in [BB84.__init__] *)

Section AlignFacts.

Lemma length_zfill x width : length (zfill x width) = Nat.max (length x) width.
Proof.
  unfold zfill. destruct (Nat.leb_spec width (length x)) as [L | G];
    [lia |].
  destruct x as [| c rest]; cbn [length] in *; [rewrite repeat_length; lia |].
  destruct (is_sign c); cbn [length]; rewrite length_app, repeat_length;
    cbn [length]; lia.
Qed.

Lemma is_bits_not_sign c rest :
  is_bits (c :: rest) = true -> is_sign c = false.
Proof.
  simpl. intros E. apply andb_true_iff in E. destruct E as [E _].
  unfold is_sign.
  apply orb_true_iff in E. destruct E as [E | E];
    apply N.eqb_eq in E; subst c; reflexivity.
Qed.

(** On a bit string [zfill] is plain left padding with zeros. *)
Lemma zfill_bits x width :
  is_bits x = true ->
  zfill x width = repeat c0 (width - length x) ++ x.
Proof.
  intros B. unfold zfill.
  destruct (Nat.leb_spec width (length x)) as [L | G].
  - replace (width - length x) with 0 by lia. reflexivity.
  - destruct x as [| c rest]; [rewrite app_nil_r; reflexivity |].
    rewrite (is_bits_not_sign c rest B). reflexivity.
Qed.

Lemma is_bits_app x y :
  is_bits (x ++ y) = is_bits x && is_bits y.
Proof. apply forallb_app. Qed.

Lemma is_bits_repeat n : is_bits (repeat c0 n) = true.
Proof. induction n as [| n IH]; [reflexivity | exact IH]. Qed.

Lemma is_bits_zfill x width :
  is_bits x = true -> is_bits (zfill x width) = true.
Proof.
  intros B. rewrite (zfill_bits x width B), is_bits_app, is_bits_repeat.
  exact B.
Qed.

Lemma is_bits_bin n : is_bits (bin n) = true.
Proof.
  destruct n as [| p]; [reflexivity |]. cbn [bin].
  induction p as [p IH | p IH |]; cbn [bin_pos];
    rewrite ?is_bits_app, ?IH; reflexivity.
Qed.

Lemma is_bits_char c : is_bits (char_to_bits c) = true.
Proof. apply is_bits_zfill, is_bits_bin. Qed.

Lemma is_bits_convert text : is_bits (convert_text_to_binary text) = true.
Proof.
  induction text as [| c text IH]; [reflexivity |].
  cbn [convert_text_to_binary flat_map].
  rewrite is_bits_app, is_bits_char. exact IH.
Qed.

Lemma is_bits_random tape pos n :
  is_bits (BB84.generate_random_bits tape pos n) = true.
Proof.
  unfold BB84.generate_random_bits, is_bits.
  apply forallb_forall. intros c Hc.
  apply in_map_iff in Hc. destruct Hc as (i & <- & _).
  destruct (tape i); reflexivity.
Qed.

Lemma length_random tape pos n :
  length (BB84.generate_random_bits tape pos n) = n.
Proof.
  unfold BB84.generate_random_bits. rewrite length_map, length_seq.
  reflexivity.
Qed.

Lemma is_bits_compressed brotli adaptive compression text :
  is_bits (BB84.compressed_binary brotli adaptive compression text) = true.
Proof.
  unfold BB84.compressed_binary.
  destruct (BB84.is_method compression "brotli");
    [apply is_bits_convert |].
  destruct (BB84.is_method compression "adaptive"); apply is_bits_convert.
Qed.

(** C8.  After [BB84.__init__], whatever the text and the
    compression setting, [binary_data], [key_bits] and [base_bits] have
    the same length, the largest of their lengths before padding, and
    each is its unpadded value with zeros added on the left. *)
Theorem bb84_operands_aligned :
  forall (brotli_compression : str -> str)
         (adaptive_compression : str -> str * str)
         (tape : nat -> bool) (data : str)
         (compression : BB84.compression_arg)
         (noise_model : bool) (shots : Z),
    let self :=
      BB84.init brotli_compression adaptive_compression
                tape data compression noise_model shots in
    let raw_binary :=
      BB84.compressed_binary brotli_compression adaptive_compression
                             compression data in
    let raw_key :=
      BB84.generate_random_bits tape 0 (BB84.data_length self) in
    let raw_base :=
      BB84.generate_random_bits tape (BB84.data_length self)
                                (BB84.data_length self) in
    let max_length :=
      Nat.max (length raw_binary)
              (Nat.max (length raw_key) (length raw_base)) in
    length (BB84.binary_data self) = max_length
    /\ length (BB84.key_bits self) = max_length
    /\ length (BB84.base_bits self) = max_length
    /\ BB84.binary_data self
       = repeat c0 (max_length - length raw_binary) ++ raw_binary
    /\ BB84.key_bits self
       = repeat c0 (max_length - length raw_key) ++ raw_key
    /\ BB84.base_bits self
       = repeat c0 (max_length - length raw_base) ++ raw_base.
Proof.
  intros brotli adaptive tape data compression noise shots.
  cbv zeta. unfold BB84.init. cbn [BB84.binary_data BB84.key_bits
    BB84.base_bits BB84.data_length].
  fold (BB84.compressed_binary brotli adaptive compression data).
  set (raw := BB84.compressed_binary brotli adaptive compression data).
  set (n := length (convert_text_to_binary data)).
  repeat split.
  - rewrite length_zfill. lia.
  - rewrite length_zfill, !length_random. lia.
  - rewrite length_zfill, !length_random. lia.
  - apply zfill_bits. apply is_bits_compressed.
  - apply zfill_bits. apply is_bits_random.
  - apply zfill_bits. apply is_bits_random.
Qed.

End AlignFacts.


(** ** Construction of a [QuantumDataTeleporter] *)

Section InitFacts.

Variable files : str -> option str.

Lemma init_guard shots file_path text_to_send noise_model :
  truthy file_path = false ->
  truthy text_to_send = false ->
  Teleporter.init files shots file_path text_to_send noise_model
  = Raise ValueError.
Proof.
  intros F T. unfold Teleporter.init. rewrite F, T. reflexivity.
Qed.

Lemma init_from_file shots path text_to_send noise_model :
  truthy (Some path) = true ->
  Teleporter.init files shots (Some path) text_to_send noise_model
  = match files path with
    | Some text => Return (Teleporter.object shots text noise_model)
    | None => Raise OSError
    end.
Proof.
  intros F. unfold Teleporter.init. rewrite F. cbn [negb andb].
  destruct path as [| c path]; [discriminate |].
  unfold Teleporter.input_text, Teleporter.text_from_file.
  destruct (files (c :: path)); reflexivity.
Qed.

Lemma init_from_text shots file_path text noise_model :
  truthy file_path = false ->
  truthy (Some text) = true ->
  Teleporter.init files shots file_path (Some text) noise_model
  = Return (Teleporter.object shots text noise_model).
Proof.
  intros F T. unfold Teleporter.init. rewrite F, T. cbn [negb andb].
  destruct file_path as [[| c path] |]; [| discriminate |]; reflexivity.
Qed.

Lemma init_Return shots file_path text_to_send noise_model self :
  Teleporter.init files shots file_path text_to_send noise_model
  = Return self ->
  exists text, self = Teleporter.object shots text noise_model.
Proof.
  unfold Teleporter.init.
  destruct (negb (truthy file_path) && negb (truthy text_to_send));
    [discriminate |].
  intros E. unbind E as (text, _).
  injection E as <-. exists text. reflexivity.
Qed.

(** The circuit [create_circuits] builds for one bit, instruction by
    instruction. *)
Lemma create_circuit_instructions bit :
  Teleporter.create_circuit bit
  = QuantumCircuit 6 6
      [ X (if N.eqb bit c1 then 1 else 0); Barrier;
        H 1; CX 1 2; Barrier;
        CX 0 1; H 0; Barrier;
        Measure 0 0; Measure 1 1; CX 1 2; CZ 0 2; Measure 2 2; Barrier;
        Measure 0 3; Measure 1 4; Measure 2 5;
        CX 3 4; CX 3 5; CX 4 5; Barrier;
        CCX 3 4 5; Measure 5 0 ].
Proof. reflexivity. Qed.

Lemma init_Return_text shots file_path text_to_send noise_model self :
  Teleporter.init files shots file_path text_to_send noise_model
  = Return self ->
  exists text,
    (if truthy file_path
     then exists path, file_path = Some path /\ files path = Some text
     else text_to_send = Some text)
    /\ self = Teleporter.object shots text noise_model.
Proof.
  intros E. destruct (truthy file_path) eqn:F.
  - destruct file_path as [path |]; [| discriminate].
    rewrite (init_from_file shots path text_to_send noise_model F) in E.
    destruct (files path) as [text |] eqn:P; [| discriminate].
    inversion E; subst. exists text. split; [| reflexivity].
    exists path. split; [reflexivity | exact P].
  - destruct (truthy text_to_send) eqn:T.
    + destruct text_to_send as [text |]; [| discriminate].
      rewrite (init_from_text shots file_path text noise_model F T) in E.
      inversion E; subst. exists text. split; reflexivity.
    + rewrite (init_guard shots file_path text_to_send noise_model F T) in E.
      discriminate.
Qed.

(** C9.  [QuantumDataTeleporter.__init__] raises [ValueError] exactly
    when [file_path] and [text_to_send] are both [None] or empty.
    Otherwise the text is read from the file when [file_path] is given
    (an unreadable file is an [OSError]) and is [text_to_send] when it
    is not.  The object that is built holds this text as
    [text_to_send], its binary form as [binary_text], the [shots] and
    [noise_model] it was given, and one circuit per bit of the binary
    form: the teleportation circuit on 6 qubits and 6 classical bits
    that starts with an [X] gate on qubit 1 for the bit ["1"] and on
    qubit 0 for any other. *)
Theorem init_missing_input_error :
  forall (shots : Z) (file_path text_to_send : option str)
         (noise_model : bool),
    let made :=
      Teleporter.init files shots file_path text_to_send noise_model in
    (made = Raise ValueError
     <-> truthy file_path = false /\ truthy text_to_send = false)
    /\ (forall path,
          file_path = Some path -> truthy file_path = true ->
          made = match files path with
                 | Some text =>
                     Return (Teleporter.object shots text noise_model)
                 | None => Raise OSError
                 end)
    /\ (forall text,
          truthy file_path = false ->
          text_to_send = Some text -> truthy text_to_send = true ->
          made = Return (Teleporter.object shots text noise_model))
    /\ (forall self,
          made = Return self ->
          exists text,
            (if truthy file_path
             then exists path,
                    file_path = Some path /\ files path = Some text
             else text_to_send = Some text)
            /\ Teleporter.text_to_send self = text
            /\ Teleporter.binary_text self = convert_text_to_binary text
            /\ Teleporter.shots self = Int shots
            /\ Teleporter.noise_model self = noise_model
            /\ length (Teleporter.circuits self)
               = length (convert_text_to_binary text)
            /\ forall i bit,
                 nth_error (convert_text_to_binary text) i = Some bit ->
                 nth_error (Teleporter.circuits self) i
                 = Some
                     (QuantumCircuit 6 6
                        [ X (if N.eqb bit c1 then 1 else 0); Barrier;
                          H 1; CX 1 2; Barrier;
                          CX 0 1; H 0; Barrier;
                          Measure 0 0; Measure 1 1; CX 1 2; CZ 0 2;
                          Measure 2 2; Barrier;
                          Measure 0 3; Measure 1 4; Measure 2 5;
                          CX 3 4; CX 3 5; CX 4 5; Barrier;
                          CCX 3 4 5; Measure 5 0 ])).
Proof.
  intros shots file_path text_to_send noise_model made. subst made.
  split; [split |]; [| | split; [| split]].
  - intros E.
    destruct (truthy file_path) eqn:F.
    + destruct file_path as [path |]; [| discriminate].
      rewrite (init_from_file shots path text_to_send noise_model F) in E.
      destruct (files path); discriminate.
    + split; [reflexivity |].
      destruct (truthy text_to_send) eqn:T; [| reflexivity].
      destruct text_to_send as [text |]; [| discriminate].
      rewrite (init_from_text shots file_path text noise_model F T) in E.
      discriminate.
  - intros [F T]. apply init_guard; assumption.
  - intros path -> F. apply init_from_file. exact F.
  - intros text F -> T. apply init_from_text; assumption.
  - intros self E.
    destruct (init_Return_text shots file_path text_to_send noise_model
                self E) as (text & Htext & ->).
    exists text. split; [exact Htext |].
    unfold Teleporter.object, Teleporter.create_circuits.
    cbn [Teleporter.binary_text Teleporter.text_to_send Teleporter.circuits
         Teleporter.shots Teleporter.noise_model].
    do 4 (split; [reflexivity |]). split; [apply length_map |].
    intros i bit Hbit. rewrite nth_error_map, Hbit. reflexivity.
Qed.

End InitFacts.

Lemma init_missing_input_error_witness :
  Teleporter.init no_files 1 None (Some []) false = Raise ValueError
  /\ exists self,
       Teleporter.init no_files 1 None (Some (str_lit "Hi")) false
       = Return self
       /\ Teleporter.text_to_send self = str_lit "Hi"
       /\ Teleporter.binary_text self = str_lit "0100100001101001"
       /\ length (Teleporter.circuits self) = 16.
Proof.
  pose proof (init_missing_input_error no_files 1 None
                (Some (str_lit "Hi")) false) as T.
  cbv zeta in T. destruct T as (_ & _ & Made & State).
  split.
  - apply (proj1 (init_missing_input_error no_files 1 None (Some []) false)).
    split; reflexivity.
  - specialize (Made (str_lit "Hi") eq_refl eq_refl eq_refl).
    destruct (State _ Made) as (text & Htext & A & B & _ & _ & C & _).
    cbn [truthy] in Htext. injection Htext as <-.
    eexists. split; [exact Made |].
    split; [exact A |]. split; [exact B | exact C].
Defined.

(** ** The returned pair *)

Section FlagFacts.

Lemma run_simulation_Return sims self self' received flag :
  Teleporter.run_simulation sims self = Return (self', (received, flag)) ->
  exists complexity shots,
    Teleporter.circuit_complexity (Teleporter.circuits self)
    = Return complexity
    /\ Teleporter.default_shots complexity = Return shots
    /\ self' = Teleporter.Make shots
                 (Teleporter.text_to_send self) (Teleporter.binary_text self)
                 (Teleporter.circuits self) (Teleporter.noise_model self)
    /\ flag = str_eqb received (Teleporter.text_to_send self).
Proof.
  unfold Teleporter.run_simulation. intros E.
  unbind E as (complexity, Hc).
  unbind E as (shots, Hs).
  unbind E as (flipped, _).
  unbind E as (converted, _).
  cbn [Teleporter.text_to_send] in E.
  injection E as <- <- <-. exists complexity, shots. repeat split.
  - exact Hc.
  - exact Hs.
Qed.

(** C6.  In the pair returned by [run_simulation], and in the pair
    returned by [run_protocol], the second component is [True] exactly
    when the first component equals the text that was sent. *)
Theorem match_flag_correct :
  (forall sims self self' received flag,
      Teleporter.run_simulation sims self
      = Return (self', (received, flag)) ->
      (flag = true <-> received = Teleporter.text_to_send self))
  /\ (forall brotli_decompression adaptive_decompression
             sims self self' received flag,
        BB84.run_protocol brotli_decompression adaptive_decompression
                          sims self
        = Return (self', (received, flag)) ->
        (flag = true <-> received = BB84.data self)).
Proof.
  split.
  - intros sims self self' received flag E.
    destruct (run_simulation_Return sims self self' received flag E)
      as (_ & _ & _ & _ & _ & ->).
    apply str_eqb_eq.
  - intros bd ad sims self self' received flag.
    unfold BB84.run_protocol. intros E.
    unbind E as (shots, _).
    unbind E as (flipped, _).
    unbind E as (text, _).
    unbind E as (decoded, _).
    cbn [BB84.data] in E. injection E as <- <- <-.
    apply str_eqb_eq.
Qed.

Lemma match_flag_correct_witness :
  true = true <-> str_lit "Hi" = Teleporter.text_to_send
                             (Teleporter.object 1 (str_lit "Hi") false).
Proof.
  apply (proj1 match_flag_correct first_outcome_simulators
           (Teleporter.object 1 (str_lit "Hi") false)
           (Teleporter.Make (Int 5) (str_lit "Hi")
              (convert_text_to_binary (str_lit "Hi"))
              (Teleporter.create_circuits
                 (convert_text_to_binary (str_lit "Hi")))
              false)
           (str_lit "Hi") true).
  vm_compute. reflexivity.
Defined.

End FlagFacts.

(** ** The [shots] argument of the teleporter *)

Section ShotsArgumentFacts.

Lemma measure_all_ext sims sims' :
  (forall i c, basic_aer sims i c (Int 1) = basic_aer sims' i c (Int 1)) ->
  forall cs i,
    Teleporter.measure_all sims false i cs
    = Teleporter.measure_all sims' false i cs.
Proof.
  intros Same. induction cs as [| c cs IH]; intros i; [reflexivity |].
  cbn [Teleporter.measure_all]. rewrite Same.
  destruct (py_max _); [reflexivity |]. cbn [bind].
  destruct (Teleporter.first_char _); [reflexivity |]. cbn [bind].
  rewrite IH. reflexivity.
Qed.

Lemma default_shots_at_most_5 complexity shots :
  Teleporter.default_shots complexity = Return shots ->
  le shots (Int 5) = true.
Proof.
  rewrite teleporter_default_shots. intros E. inversion E; subst.
  apply le_of_ub. unfold ub. cbn [as_double ubd].
  rewrite <- Zle_Qle. lia.
Qed.

(** C10.  The [shots] given to the constructor does not reach the
    result of [run_simulation]: two objects built with different
    [shots] behave the same (same exception, or same final object and
    same returned pair).  The call stores
    [calculate_adaptive_shots(len(circuits[0]))] in [self.shots], at
    most 5 with the default bounds, and without a noise model the
    backend is only ever asked for one shot. *)
Theorem shots_argument_has_no_effect :
  (forall files shots1 shots2 file_path text_to_send noise_model sims,
      bind (Teleporter.init files shots1 file_path text_to_send noise_model)
           (Teleporter.run_simulation sims)
      = bind (Teleporter.init files shots2 file_path text_to_send noise_model)
             (Teleporter.run_simulation sims))
  /\ (forall sims self self' returned,
        Teleporter.run_simulation sims self = Return (self', returned) ->
        exists complexity,
          Teleporter.circuit_complexity (Teleporter.circuits self)
          = Return complexity
          /\ Teleporter.calculate_adaptive_shots
               complexity (float_lit (9 # 10)) 0 5
             = Return (Teleporter.shots self')
          /\ le (Teleporter.shots self') (Int 5) = true)
  /\ (forall sims sims' self,
        Teleporter.noise_model self = false ->
        (forall i c,
            basic_aer sims i c (Int 1) = basic_aer sims' i c (Int 1)) ->
        Teleporter.run_simulation sims self
        = Teleporter.run_simulation sims' self).
Proof.
  split; [| split].
  - intros files shots1 shots2 file_path text_to_send noise_model sims.
    unfold Teleporter.init.
    destruct (negb (truthy file_path) && negb (truthy text_to_send));
      [reflexivity |].
    destruct (Teleporter.input_text files file_path text_to_send)
      as [e | text]; reflexivity.
  - intros sims self self' [received flag] E.
    destruct (run_simulation_Return sims self self' received flag E)
      as (complexity & shots & Hc & Hs & -> & _).
    exists complexity. split; [exact Hc |]. split; [exact Hs |].
    apply (default_shots_at_most_5 complexity). exact Hs.
  - intros sims sims' self Noise Same.
    unfold Teleporter.run_simulation.
    destruct (Teleporter.circuit_complexity _); [reflexivity |].
    cbn [bind]. destruct (Teleporter.default_shots _); [reflexivity |].
    cbn [bind Teleporter.noise_model Teleporter.circuits]. rewrite Noise.
    rewrite (measure_all_ext sims sims' Same). reflexivity.
Qed.

Lemma shots_argument_has_no_effect_witness :
  Teleporter.run_simulation first_outcome_simulators
    (Teleporter.object 7 (str_lit "Hi") false)
  = Teleporter.run_simulation
      (Simulators (fun _ _ _ => []) first_outcome)
      (Teleporter.object 7 (str_lit "Hi") false).
Proof.
  apply (proj2 (proj2 shots_argument_has_no_effect)
           first_outcome_simulators
           (Simulators (fun _ _ _ => []) first_outcome)
           (Teleporter.object 7 (str_lit "Hi") false)).
  - reflexivity.
  - intros i c. reflexivity.
Defined.

End ShotsArgumentFacts.


(** ** The round trip through a noiseless simulator *)

Section RoundTripFacts.

Lemma chunks8_cons block rest :
  length block = 8 -> chunks8 (block ++ rest) = block :: chunks8 rest.
Proof.
  intros B. unfold chunks8, py_range.
  rewrite length_app, B.
  replace (8 + length rest + 8 - 1) with (length rest + 8 - 1 + 1 * 8)
    by lia.
  rewrite Nat.div_add by lia.
  rewrite Nat.add_1_r, <- cons_seq, <- seq_shift, !map_cons, !map_map.
  f_equal.
  - rewrite slice_8. cbn [Nat.mul skipn].
    rewrite firstn_app, B, Nat.sub_diag, firstn_O, app_nil_r.
    rewrite <- B. apply firstn_all.
  - apply map_ext. intros j. rewrite !slice_8. f_equal.
    replace (S j * 8) with (length block + j * 8) by lia.
    rewrite skipn_app, Nat.add_comm, Nat.add_sub.
    rewrite skipn_all2 by lia. reflexivity.
Qed.

(** A property of all whole bytes is checked on the 256 of them. *)
Lemma byte_cases (P : char -> Prop) :
  (forall a : ascii, P (N_of_ascii a)) ->
  forall c, (c < 256)%N -> P c.
Proof.
  intros All c L. rewrite <- (N_ascii_embedding c L). apply All.
Qed.

Lemma is_bytes_cons c text :
  is_bytes (c :: text) = true -> (c < 256)%N /\ is_bytes text = true.
Proof.
  cbn [is_bytes forallb]. intros E.
  apply andb_true_iff in E. destruct E as [E B]. split; [| exact B].
  apply N.ltb_lt. exact E.
Qed.

Lemma length_char_to_bits c : (c < 256)%N -> length (char_to_bits c) = 8.
Proof.
  revert c. apply byte_cases.
  intros [[] [] [] [] [] [] [] []]; vm_compute; reflexivity.
Qed.

Lemma chunks8_convert text :
  is_bytes text = true ->
  chunks8 (convert_text_to_binary text) = map char_to_bits text.
Proof.
  induction text as [| c text IH]; intros B; [reflexivity |].
  apply is_bytes_cons in B. destruct B as [Hc B].
  cbn [convert_text_to_binary flat_map map].
  rewrite chunks8_cons by (apply length_char_to_bits; exact Hc).
  f_equal. apply IH. exact B.
Qed.

Lemma byte_of_bits c : (c < 256)%N -> int_base2 (char_to_bits c) = Some c.
Proof.
  revert c. apply byte_cases.
  intros [[] [] [] [] [] [] [] []]; vm_compute; reflexivity.
Qed.

(** Decoding the chunks of an encoded text of whole bytes gives the
    text. *)
Lemma convert_roundtrip text :
  is_bytes text = true ->
  convert_binary_to_text (chunks8 (convert_text_to_binary text))
  = Return text.
Proof.
  intros B. rewrite chunks8_convert by exact B.
  induction text as [| c text IH]; [reflexivity |].
  apply is_bytes_cons in B. destruct B as [Hc B].
  cbn [map convert_binary_to_text].
  rewrite (byte_of_bits c Hc).
  replace (c <=? 1114111)%N with true by (symmetry; apply N.leb_le; lia).
  rewrite (IH B). reflexivity.
Qed.

Lemma join_singletons (x : str) : join (map (fun c => [c]) x) = x.
Proof.
  induction x as [| c x IH]; [reflexivity |].
  cbn [map]. unfold join in *. rewrite concat_cons, IH. reflexivity.
Qed.






Lemma is_bits_cons c x :
  is_bits (c :: x) = true -> (c = c0 \/ c = c1) /\ is_bits x = true.
Proof.
  cbn [is_bits forallb]. intros E.
  apply andb_true_iff in E. destruct E as [E B]. split; [| exact B].
  apply orb_true_iff in E.
  destruct E as [E | E]; apply N.eqb_eq in E; auto.
Qed.



End RoundTripFacts.

Section RoundTrip.




Lemma py_len_range {A : Type} (x : list A) :
  (0 <= py_len x <= dbl_max)%Z.
Proof. unfold py_len, maxsize, dbl_max. lia. Qed.





End RoundTrip.

(** * Further properties of the estimators *)

Section EstimatorFacts.
Local Open Scope Q_scope.

Lemma add_Int_is_int base extra r :
  add (Int base) extra = Return r -> is_int r = is_int extra.
Proof.
  destruct extra as [z | d]; cbn [add]; intros E.
  - inversion E; reflexivity.
  - unbind E as (x, _). unbind E as (y, _). inversion E; reflexivity.
Qed.

Lemma base_plus_capped base top extra r :
  (- 2 ^ 53 < base < 2 ^ 53)%Z -> (- 2 ^ 53 < top < 2 ^ 53)%Z ->
  (- 2 ^ 53 < top - base < 2 ^ 53)%Z ->
  ub (inject_Z (top - base)) extra ->
  add (Int base) extra = Return r ->
  le r (Int top) = true.
Proof.
  intros Hb Ht Hr U E. apply le_of_ub.
  assert (A : ub (inject_Z base + inject_Z (top - base)) r).
  { apply (add_ub (Int base) extra); try assumption;
      try (apply dpoint_Z; assumption).
    - apply (dpoint_Proper (inject_Z top)); [| apply dpoint_Z; exact Ht].
      rewrite <- inject_Z_plus. f_equiv. lia.
    - unfold ub. cbn [as_double ubd]. apply Qle_refl. }
  unfold ub in *. revert A. apply ubd_mono.
  rewrite <- inject_Z_plus, <- Zle_Qle. lia.
Qed.

(** A returned shot count never exceeds [max_shots], whatever the sign
    of [circuit_complexity] and [text_length], whatever the confidence
    and whether or not [base_shots <= max_shots], as long as
    [base_shots], [max_shots] and their difference are below [2^53] in
    magnitude. *)
Theorem adaptive_shots_never_exceed_max :
  forall (circuit_complexity text_length : Z) (confidence_level : double)
         (base_shots max_shots : Z),
    (- 2 ^ 53 < base_shots < 2 ^ 53)%Z ->
    (- 2 ^ 53 < max_shots < 2 ^ 53)%Z ->
    (- 2 ^ 53 < max_shots - base_shots < 2 ^ 53)%Z ->
    (forall shots,
        BB84.calculate_adaptive_shots
          circuit_complexity text_length confidence_level
          base_shots max_shots = Return shots ->
        le shots (Int max_shots) = true)
    /\ (forall shots,
          Teleporter.calculate_adaptive_shots
            circuit_complexity confidence_level base_shots max_shots
          = Return shots ->
          le shots (Int max_shots) = true).
Proof.
  intros c t conf base top Hb Ht Hr. split; intros r E.
  - unfold BB84.calculate_adaptive_shots in E. unbind E as (extra, He).
    apply (base_plus_capped base top extra r); try assumption.
    eapply bb84_additional_cap; [exact Hr | exact He].
  - unfold Teleporter.calculate_adaptive_shots in E.
    unbind E as (extra, He).
    apply (base_plus_capped base top extra r); try assumption.
    eapply teleporter_additional_cap. exact He.
Qed.

Lemma adaptive_shots_never_exceed_max_witness :
  Teleporter.calculate_adaptive_shots (-4) (float_lit (95 # 100)) 250 100
  = Return (Int 100)
  /\ le (Int 100) (Int 100) = true.
Proof.
  assert (E : Teleporter.calculate_adaptive_shots
                (-4) (float_lit (95 # 100)) 250 100
              = Return (Int 100)) by (vm_compute; reflexivity).
  split; [exact E |].
  exact (proj2 (adaptive_shots_never_exceed_max
                  (-4) (-7) (float_lit (95 # 100)) 250 100
                  ltac:(lia) ltac:(lia) ltac:(lia))
               (Int 100) E).
Defined.

Lemma inject_Z_pred b : inject_Z (b - 1) == inject_Z b + - (1).
Proof.
  replace (b - 1)%Z with (b + -1)%Z by lia. rewrite inject_Z_plus.
  reflexivity.
Qed.

Lemma lt_of_ub n b : ub (inject_Z (b - 1)) n -> lt n (Int b) = true.
Proof.
  unfold ub, lt, cmp. cbn [as_double].
  destruct (as_double n) as [q | | |]; cbn [ubd cmp_double];
    try contradiction; [| reflexivity].
  intros U. rewrite inject_Z_pred in U.
  destruct (Qcompare_spec q (inject_Z b)); try reflexivity; lra.
Qed.

Lemma not_lt_of_lb n b : lb (inject_Z b) n -> lt n (Int b) = false.
Proof.
  unfold lb, lt, cmp. cbn [as_double].
  destruct (as_double n) as [q | | |]; cbn [lbd cmp_double];
    try contradiction; [| reflexivity].
  intros L. destruct (Qcompare_spec q (inject_Z b)); try reflexivity; lra.
Qed.

(** With [base_shots <= max_shots] (both, and their difference, below
    [2^53] in magnitude), a shot count returned by
    [QuantumDataTeleporter.calculate_adaptive_shots] is below
    [base_shots] exactly when [circuit_complexity] is negative. *)
Theorem teleporter_shots_below_base_iff_negative :
  forall (circuit_complexity : Z) (confidence_level : double)
         (base_shots max_shots : Z) (shots : num),
    (- 2 ^ 53 + 1 < base_shots)%Z ->
    (base_shots <= max_shots)%Z ->
    (max_shots < 2 ^ 53)%Z ->
    (max_shots - base_shots < 2 ^ 53)%Z ->
    Teleporter.calculate_adaptive_shots
      circuit_complexity confidence_level base_shots max_shots
    = Return shots ->
    (lt shots (Int base_shots) = true <-> (circuit_complexity < 0)%Z).
Proof.
  intros c conf base top r Hb Hbt Ht Hr E.
  unfold Teleporter.calculate_adaptive_shots in E. unbind E as (extra, He).
  assert (Db : dpoint (inject_Z base)) by (apply dpoint_Z; lia).
  assert (Bb : lb (inject_Z base) (Int base)
               /\ ub (inject_Z base) (Int base)).
  { unfold lb, ub. cbn [as_double lbd ubd]. split; apply Qle_refl. }
  destruct Bb as (Lb & Ub).
  destruct (Z_lt_le_dec c 0) as [Neg | Pos].
  - split; [intros _; exact Neg | intros _].
    apply lt_of_ub.
    assert (U : ub (- (1)) extra).
    { apply teleporter_additional_steps in He.
      destruct (gt (Float conf) (Float (float_lit (9 # 10)))).
      - destruct He as (scaled & Hs & ->).
        destruct (mul_Int_Float _ _ _ Hs) as (x & Hx & ->).
        assert (Ux : ubd (inject_Z (-1)) (Finite x)).
        { eapply float_of_int_ub; [apply dpoint_Z; lia | | exact Hx].
          rewrite <- Zle_Qle. lia. }
        cbn [ubd] in Ux. change (inject_Z (-1)) with (- (1)) in Ux.
        assert (Us : ubd (- (1)) (round_to_double (x * (3 # 2)))).
        { apply round_to_double_ub; [apply (dpoint_Z (-1)); lia | lra]. }
        unfold min.
        replace (lt (Int (top - base))
                    (Float (round_to_double (x * (3 # 2)))))
          with false; [exact Us |].
        symmetry. unfold lt, cmp. cbn [as_double].
        destruct (round_to_double (x * (3 # 2))) as [q | | |];
          cbn [ubd cmp_double] in *; try contradiction; [| reflexivity].
        assert (0 <= inject_Z (top - base))
          by (change 0 with (inject_Z 0); rewrite <- Zle_Qle; lia).
        destruct (Qcompare_spec (inject_Z (top - base)) q);
          try reflexivity; lra.
      - subst extra. unfold ub. cbn [as_double ubd].
        change (- (1)) with (inject_Z (-1)). rewrite <- Zle_Qle. lia. }
    assert (A : ub (inject_Z base + - (1)) r).
    { apply (add_ub (Int base) extra); try assumption.
      - apply (dpoint_Z (-1)). lia.
      - apply (dpoint_Proper (inject_Z (base - 1))); [| apply dpoint_Z; lia].
        apply inject_Z_pred. }
    unfold ub in *. revert A. apply ubd_mono.
    rewrite inject_Z_pred. apply Qle_refl.
  - split; [| lia]. intros L. exfalso.
    assert (N : lt r (Int base) = false); [| congruence].
    apply not_lt_of_lb.
    assert (A : lb (inject_Z base + 0) r).
    { apply (add_lb (Int base) extra); try assumption;
        [apply dpoint_0 | |].
      - apply (dpoint_Proper (inject_Z base)); [ring | exact Db].
      - eapply teleporter_additional_nonneg; [| | exact He]; lia. }
    unfold lb in *. revert A. apply lbd_mono. lra.
Qed.

Lemma teleporter_shots_below_base_iff_negative_witness :
  Teleporter.calculate_adaptive_shots (-1) (float_lit (95 # 100)) 250 4096
  = Return (Float (Finite (497 # 2)))
  /\ (lt (Float (Finite (497 # 2))) (Int 250) = true <-> (-1 < 0)%Z).
Proof.
  assert (E : Teleporter.calculate_adaptive_shots
                (-1) (float_lit (95 # 100)) 250 4096
              = Return (Float (Finite (497 # 2))))
    by (vm_compute; reflexivity).
  split; [exact E |].
  exact (teleporter_shots_below_base_iff_negative
           (-1) (float_lit (95 # 100)) 250 4096 (Float (Finite (497 # 2)))
           ltac:(lia) ltac:(lia) ltac:(lia) ltac:(lia) E).
Defined.

Lemma mul_Int_Float_is_float c k scaled :
  mul (Int c) (Float (Finite k)) = Return scaled -> is_int scaled = false.
Proof.
  intros E. destruct (mul_Int_Float _ _ _ E) as (x & _ & ->). reflexivity.
Qed.

Lemma is_int_min_room scaled room :
  is_int scaled = false ->
  is_int (min scaled (Int room)) = lt (Int room) scaled.
Proof.
  intros F. unfold min. destruct (lt (Int room) scaled);
    [reflexivity | exact F].
Qed.

(** A returned shot count is a float exactly when the confidence test
    succeeds and the float [circuit_complexity * 1.5] is not above
    [max_shots - base_shots]; every other call that returns gives an
    [int]. *)
Theorem adaptive_shots_float_iff :
  forall (circuit_complexity text_length : Z) (confidence_level : double)
         (base_shots max_shots : Z),
    let float_chosen :=
      gt (Float confidence_level) (Float (float_lit (9 # 10))) = true
      /\ exists scaled,
           mul (Int circuit_complexity) (Float (float_lit (3 # 2)))
           = Return scaled
           /\ lt (Int (max_shots - base_shots)) scaled = false in
    (forall shots,
        BB84.calculate_adaptive_shots
          circuit_complexity text_length confidence_level
          base_shots max_shots = Return shots ->
        (is_int shots = false <-> float_chosen))
    /\ (forall shots,
          Teleporter.calculate_adaptive_shots
            circuit_complexity confidence_level base_shots max_shots
          = Return shots ->
          (is_int shots = false <-> float_chosen)).
Proof.
  intros c t conf base top float_chosen. subst float_chosen.
  rewrite float_lit_1_5.
  assert (Confident : forall scaled,
             mul (Int c) (Float (Finite (3 # 2))) = Return scaled ->
             is_int (min scaled (Int (top - base))) = false
             <-> true = true
                 /\ exists scaled',
                      mul (Int c) (Float (Finite (3 # 2))) = Return scaled'
                      /\ lt (Int (top - base)) scaled' = false).
  { intros scaled Hs.
    rewrite (is_int_min_room _ _ (mul_Int_Float_is_float _ _ _ Hs)).
    split.
    - intros L. split; [reflexivity |]. exists scaled. tauto.
    - intros (_ & scaled' & Hs' & L). congruence. }
  split; intros r E.
  - unfold BB84.calculate_adaptive_shots in E. unbind E as (extra, He).
    rewrite (add_Int_is_int _ _ _ E).
    apply bb84_additional_steps in He. destruct He as (r0 & H0 & Hb).
    destruct (gt (Float conf) (Float (float_lit (9 # 10)))).
    + apply bb84_confident_steps in Hb. destruct Hb as (scaled & Hs & ->).
      apply Confident. exact Hs.
    + subst r0. apply bb84_default_steps in H0.
      destruct H0 as (_ & _ & mean & _ & _ & _ & Hr).
      destruct (round_Return _ _ Hr) as (z & ->). cbn [is_int].
      split; [discriminate | intros [A _]; discriminate A].
  - unfold Teleporter.calculate_adaptive_shots in E.
    unbind E as (extra, He). rewrite (add_Int_is_int _ _ _ E).
    apply teleporter_additional_steps in He.
    destruct (gt (Float conf) (Float (float_lit (9 # 10)))).
    + destruct He as (scaled & Hs & ->). apply Confident. exact Hs.
    + subst extra. cbn [is_int].
      split; [discriminate | intros [A _]; discriminate A].
Qed.

Lemma adaptive_shots_float_iff_witness :
  BB84.calculate_adaptive_shots 1 0 (float_lit (95 # 100)) 250 4096
  = Return (Float (Finite (503 # 2)))
  /\ (is_int (Float (Finite (503 # 2))) = false
      <-> gt (Float (float_lit (95 # 100))) (Float (float_lit (9 # 10)))
          = true
          /\ exists scaled,
               mul (Int 1) (Float (float_lit (3 # 2))) = Return scaled
               /\ lt (Int (4096 - 250)) scaled = false).
Proof.
  assert (E : BB84.calculate_adaptive_shots
                1 0 (float_lit (95 # 100)) 250 4096
              = Return (Float (Finite (503 # 2))))
    by (vm_compute; reflexivity).
  split; [exact E |].
  exact (proj1 (adaptive_shots_float_iff
                  1 0 (float_lit (95 # 100)) 250 4096)
               (Float (Finite (503 # 2))) E).
Defined.

End EstimatorFacts.

(** * Further properties of the chunking and of the vote *)

Section ChunkShape.

Lemma nth_error_chunks8 merged j chunk :
  nth_error (chunks8 merged) j = Some chunk ->
  j < (length merged + 7) / 8 /\ chunk = firstn 8 (skipn (8 * j) merged).
Proof.
  unfold chunks8, py_range. rewrite !nth_error_map.
  replace (length merged + 8 - 1) with (length merged + 7) by lia.
  rewrite nth_error_seq.
  destruct (Nat.ltb_spec j ((length merged + 7) / 8)) as [Hj |];
    [| discriminate].
  cbn [option_map]. intros E. injection E as <-.
  split; [exact Hj |]. rewrite slice_8. do 2 f_equal. lia.
Qed.

(** [handle_flipped_results] on any list of results, of whatever total
    length [n]: it returns [ceil(n / 8)] chunks, none of them empty, the
    [j]-th being characters [8 * j .. 8 * j + 7] of the merged string
    (fewer for a last chunk that runs into the end), and joining them
    gives the merged string.  No results give no chunk. *)
Theorem handle_flipped_results_shape :
  forall flipped_results : list str,
    let merged := join flipped_results in
    let chunks := Teleporter.handle_flipped_results flipped_results in
    join chunks = merged
    /\ length chunks = (length merged + 7) / 8
    /\ (merged = [] -> chunks = [])
    /\ (forall j chunk,
          nth_error chunks j = Some chunk ->
          chunk = firstn 8 (skipn (8 * j) merged)
          /\ length chunk = Nat.min 8 (length merged - 8 * j)
          /\ 1 <= length chunk).
Proof.
  intros flipped merged chunks. subst chunks.
  unfold Teleporter.handle_flipped_results. fold merged.
  split; [apply join_chunks8 |]. split; [| split].
  - unfold chunks8, py_range. rewrite !length_map, length_seq.
    f_equal. lia.
  - intros ->. reflexivity.
  - intros j chunk E.
    destruct (nth_error_chunks8 merged j chunk E) as [Hj ->].
    split; [reflexivity |].
    rewrite length_firstn, length_skipn.
    pose proof (Nat.div_mod_eq (length merged + 7) 8).
    pose proof (Nat.mod_upper_bound (length merged + 7) 8).
    lia.
Qed.

Lemma handle_flipped_results_shape_witness :
  length (str_lit "011")
  = Nat.min 8 (length (join [str_lit "01001"; str_lit "000011"]) - 8 * 1)
  /\ 1 <= length (str_lit "011").
Proof.
  destruct (proj2 (proj2 (proj2 (handle_flipped_results_shape
              [str_lit "01001"; str_lit "000011"])))
              1 (str_lit "011") eq_refl) as (_ & L & N).
  split; [exact L | exact N].
Defined.

End ChunkShape.

Section VoteShape.
Local Open Scope Z_scope.

Lemma max_from_first cs : forall rest best pre mid,
  (forall k, In k pre -> count_of cs k < count_of cs best) ->
  (forall k, In k mid -> count_of cs k <= count_of cs best) ->
  exists pre' post,
    pre ++ best :: mid ++ rest = pre' ++ max_from cs best rest :: post
    /\ (forall k, In k pre' ->
          count_of cs k < count_of cs (max_from cs best rest))
    /\ (forall k, In k post ->
          count_of cs k <= count_of cs (max_from cs best rest)).
Proof.
  induction rest as [| k rest IH]; intros best pre mid Hpre Hmid.
  - exists pre, mid. rewrite app_nil_r. cbn [max_from]. auto.
  - cbn [max_from].
    destruct (Z.ltb_spec (count_of cs best) (count_of cs k)) as [L | G].
    + destruct (IH k (pre ++ best :: mid) []) as (pre' & post & E & A & B).
      * intros k' Hk'. apply in_app_or in Hk'.
        destruct Hk' as [Hk' | [<- | Hk']];
          [specialize (Hpre _ Hk') | | specialize (Hmid _ Hk')]; lia.
      * intros k' [].
      * exists pre', post. split; [| split; assumption].
        rewrite <- E. rewrite <- app_assoc. reflexivity.
    + destruct (IH best pre (mid ++ [k])) as (pre' & post & E & A & B).
      * exact Hpre.
      * intros k' Hk'. apply in_app_or in Hk'.
        destruct Hk' as [Hk' | [<- | []]]; [apply Hmid; exact Hk' | lia].
      * exists pre', post. split; [| split; assumption].
        rewrite <- E. rewrite <- app_assoc. reflexivity.
Qed.

(** The tie-break of [max(counts, key=counts.get)]: the key returned is
    the first key of maximal count in the dictionary's iteration order -
    every key before it has a strictly smaller count, every key after it
    a count that is not larger.  The call raises, with [ValueError],
    exactly on an empty dictionary. *)
Theorem py_max_first_maximal :
  forall cs : counts,
    (py_max cs = Raise ValueError <-> cs = [])
    /\ (forall e, py_max cs = Raise e -> e = ValueError)
    /\ (forall res,
          py_max cs = Return res ->
          exists before after,
            keys cs = before ++ res :: after
            /\ (forall k, In k before -> count_of cs k < count_of cs res)
            /\ (forall k, In k after -> count_of cs k <= count_of cs res)).
Proof.
  intros cs. unfold py_max.
  destruct cs as [| [k n] rest]; cbn [keys map fst].
  - split; [tauto |]. split; [intros e E; congruence | discriminate].
  - split; [split; discriminate |]. split; [discriminate |].
    intros res E. injection E as <-.
    destruct (max_from_first ((k, n) :: rest) (map fst rest) k [] [])
      as (pre & post & E & A & B); try (intros ? []).
    exists pre, post. split; [exact E | split; assumption].
Qed.

Lemma py_max_first_maximal_witness :
  exists before after,
    keys [(str_lit "00", 3); (str_lit "01", 7); (str_lit "10", 7)]
    = before ++ str_lit "01" :: after
    /\ (forall k, In k before ->
          count_of [(str_lit "00", 3); (str_lit "01", 7); (str_lit "10", 7)] k
          < 7)
    /\ (forall k, In k after ->
          count_of [(str_lit "00", 3); (str_lit "01", 7); (str_lit "10", 7)] k
          <= 7).
Proof.
  apply (proj2 (proj2 (py_max_first_maximal
           [(str_lit "00", 3); (str_lit "01", 7); (str_lit "10", 7)]))
           (str_lit "01") eq_refl).
Defined.

End VoteShape.

(** * Further properties of the two loops *)

Section LoopFacts.

Lemma bb84_measure_all_step sims noise shots i bit rest :
  BB84.measure_all sims noise shots i (bit :: rest)
  = (res <- py_max (bb84_answer sims noise shots i bit) ;;
     flipped_results <- BB84.measure_all sims noise shots (S i) rest ;;
     Return (res :: flipped_results)).
Proof. unfold bb84_answer. destruct noise; reflexivity. Qed.

Lemma teleporter_measure_all_step sims noise i circuit rest :
  Teleporter.measure_all sims noise i (circuit :: rest)
  = (res <- py_max (teleporter_answer sims noise i circuit) ;;
     bit <- Teleporter.first_char res ;;
     flipped_results <- Teleporter.measure_all sims noise (S i) rest ;;
     Return (bit_flipper bit :: flipped_results)).
Proof. reflexivity. Qed.

Lemma py_max_Raise cs e : py_max cs = Raise e -> e = ValueError /\ cs = [].
Proof.
  unfold py_max. destruct cs as [| [k n] rest]; cbn [keys map];
    [| discriminate].
  intros E. injection E as <-. split; reflexivity.
Qed.

Lemma py_max_Return cs res : py_max cs = Return res -> cs <> [].
Proof. intros E ->. discriminate. Qed.

Lemma bb84_loop_errors_from sims noise shots : forall bits i,
    (forall e,
        BB84.measure_all sims noise shots i bits = Raise e ->
        e = ValueError
        /\ exists j bit,
             nth_error bits j = Some bit
             /\ bb84_answer sims noise shots (i + j) bit = []
             /\ forall j' bit',
                  j' < j -> nth_error bits j' = Some bit' ->
                  bb84_answer sims noise shots (i + j') bit' <> [])
    /\ (forall flipped,
          BB84.measure_all sims noise shots i bits = Return flipped ->
          length flipped = length bits
          /\ forall j bit,
               nth_error bits j = Some bit ->
               bb84_answer sims noise shots (i + j) bit <> [])
    /\ ((forall j bit,
            nth_error bits j = Some bit ->
            bb84_answer sims noise shots (i + j) bit <> []) ->
        exists flipped,
          BB84.measure_all sims noise shots i bits = Return flipped).
Proof.
  induction bits as [| b bits IH]; intros i.
  - split; [discriminate |]. split.
    + intros flipped E. injection E as <-. split; [reflexivity |].
      intros [| j] bit; discriminate.
    + intros _. exists []. reflexivity.
  - rewrite bb84_measure_all_step.
    destruct (IH (S i)) as (IHe & IHr & IHt).
    destruct (py_max (bb84_answer sims noise shots i b)) as [e0 | res] eqn:M;
      cbn [bind].
    + apply py_max_Raise in M. destruct M as [-> M].
      split; [| split].
      * intros e E. injection E as <-. split; [reflexivity |].
        exists 0, b. rewrite Nat.add_0_r.
        split; [reflexivity |]. split; [exact M |]. intros; lia.
      * discriminate.
      * intros All. exfalso. apply (All 0 b eq_refl).
        rewrite Nat.add_0_r. exact M.
    + apply py_max_Return in M.
      assert (Shift : forall j, i + S j = S i + j) by (intros; lia).
      destruct (BB84.measure_all sims noise shots (S i) bits)
        as [e1 | tail] eqn:T; cbn [bind].
      * split; [| split].
        -- intros e E. injection E as <-.
           destruct (IHe e1 eq_refl) as (-> & j & bit & Hj & He & Hf).
           split; [reflexivity |]. exists (S j), bit.
           rewrite Shift. split; [exact Hj |]. split; [exact He |].
           intros [| j'] bit' Hlt Hn.
           ++ rewrite Nat.add_0_r. injection Hn as <-. exact M.
           ++ rewrite Shift. apply (Hf j' bit'); [lia | exact Hn].
        -- discriminate.
        -- intros All. exfalso.
           destruct IHt as (flipped & F); [| discriminate].
           intros j bit Hj. rewrite <- Shift. apply (All (S j) bit Hj).
      * destruct (IHr tail eq_refl) as (Hlen & Hall).
        split; [discriminate |]. split.
        -- intros flipped E. injection E as <-. cbn [length].
           split; [f_equal; exact Hlen |].
           intros [| j] bit Hj.
           ++ rewrite Nat.add_0_r. injection Hj as <-. exact M.
           ++ rewrite Shift. apply (Hall j bit Hj).
        -- intros _. eexists. reflexivity.
Qed.

(** On the counts the backend answers with, the loop of [run_protocol]
    runs to the end exactly when none of them is empty, and then it has
    recorded one result per bit; an empty counts dictionary makes [max]
    raise [ValueError]. *)
Theorem bb84_loop_errors :
  forall sims noise shots (encoded_data : str),
    ((exists flipped_results,
         BB84.measure_all sims noise shots 0 encoded_data
         = Return flipped_results)
     <-> (forall j bit,
            nth_error encoded_data j = Some bit ->
            bb84_answer sims noise shots j bit <> []))
    /\ (forall flipped_results,
          BB84.measure_all sims noise shots 0 encoded_data
          = Return flipped_results ->
          length flipped_results = length encoded_data)
    /\ (forall j bit,
          nth_error encoded_data j = Some bit ->
          bb84_answer sims noise shots j bit = [] ->
          BB84.measure_all sims noise shots 0 encoded_data
          = Raise ValueError).
Proof.
  intros sims noise shots bits.
  destruct (bb84_loop_errors_from sims noise shots bits 0)
    as (E & R & T).
  split; [split |]; [| exact T | split].
  - intros (flipped & F). apply (R flipped F).
  - intros flipped F. apply (R flipped F).
  - intros j bit Hj Empty.
    destruct (BB84.measure_all sims noise shots 0 bits) as [e | flipped].
    + destruct (E e eq_refl) as [-> _]. reflexivity.
    + exfalso. destruct (R flipped eq_refl) as [_ All].
      exact (All j bit Hj Empty).
Qed.

Lemma bb84_loop_errors_witness :
  exists flipped_results,
    BB84.measure_all first_outcome_simulators false (Int 3) 0
                     (str_lit "0110")
    = Return flipped_results.
Proof.
  apply (proj1 (bb84_loop_errors first_outcome_simulators false
                  (Int 3) (str_lit "0110"))).
  intros [| [| [| [| [| j]]]]] bit E; vm_compute in E; try discriminate E;
    injection E as <-; vm_compute; discriminate.
Defined.

Lemma effective_shots_returns self :
  exists n, BB84.effective_shots self = Return n.
Proof.
  unfold BB84.effective_shots.
  destruct (BB84.is_minus_one (BB84.shots self));
    [| eexists; reflexivity].
  destruct (bb84_default_shots_range (py_len (BB84.binary_data self))
              (py_len_range _)) as (n & -> & _).
  eexists. reflexivity.
Qed.

(** [run_protocol] raises [ValueError] whenever the backend returns an
    empty counts dictionary for one of the bits, whatever it returns for
    the others and whatever the compression setting is. *)
Theorem run_protocol_empty_counts :
  forall brotli_decompression adaptive_decompression sims self,
    exists shots,
      BB84.effective_shots self = Return shots
      /\ forall j bit,
           nth_error (BB84.binary_data self) j = Some bit ->
           bb84_answer sims (BB84.noise_model self) shots j bit = [] ->
           BB84.run_protocol brotli_decompression adaptive_decompression
                             sims self
           = Raise ValueError.
Proof.
  intros bd ad sims self.
  destruct (effective_shots_returns self) as (n & En).
  exists n. split; [exact En |]. intros j bit Hj Empty.
  unfold BB84.run_protocol. rewrite En.
  cbn [bind BB84.noise_model BB84.shots BB84.compression BB84.data].
  destruct (bb84_loop_errors_from sims (BB84.noise_model self)
              n (BB84.binary_data self) 0)
    as (E & R & _).
  destruct (BB84.measure_all sims (BB84.noise_model self)
              n 0 (BB84.binary_data self))
    as [e | flipped].
  - destruct (E e eq_refl) as [-> _]. reflexivity.
  - exfalso. destruct (R flipped eq_refl) as [_ All].
    exact (All j bit Hj Empty).
Qed.

Lemma run_protocol_empty_counts_witness :
  BB84.run_protocol Return Return
    (Simulators first_outcome (fun _ _ _ => []))
    (BB84.init (fun x => x) (fun x => (x, x)) Nat.even (str_lit "Hi")
               BB84.Disabled false (-1))
  = Raise ValueError.
Proof.
  destruct (run_protocol_empty_counts Return Return
              (Simulators first_outcome (fun _ _ _ => []))
              (BB84.init (fun x => x) (fun x => (x, x)) Nat.even
                         (str_lit "Hi") BB84.Disabled false (-1)))
    as (shots & _ & Run).
  apply (Run 0 c0); reflexivity.
Defined.

Lemma first_char_Raise res e :
  Teleporter.first_char res = Raise e -> e = IndexError /\ res = [].
Proof.
  destruct res; [| discriminate]. intros E. injection E as <-.
  split; reflexivity.
Qed.

Lemma teleporter_loop_errors_from sims noise : forall cs i,
  (forall e,
      Teleporter.measure_all sims noise i cs = Raise e ->
      exists j circuit,
        nth_error cs j = Some circuit
        /\ ((e = ValueError
             /\ teleporter_answer sims noise (i + j) circuit = [])
            \/ (e = IndexError
                /\ py_max (teleporter_answer sims noise (i + j) circuit)
                   = Return [])))
  /\ (forall flipped,
        Teleporter.measure_all sims noise i cs = Return flipped ->
        length flipped = length cs
        /\ Forall (fun r => length r = 1) flipped)
  /\ ((forall j circuit,
          nth_error cs j = Some circuit ->
          exists c rest,
            py_max (teleporter_answer sims noise (i + j) circuit)
            = Return (c :: rest)) ->
      exists flipped,
        Teleporter.measure_all sims noise i cs = Return flipped).
Proof.
  induction cs as [| cir cs IH]; intros i.
  - split; [discriminate |]. split.
    + intros flipped E. injection E as <-. split; [reflexivity | constructor].
    + intros _. exists []. reflexivity.
  - rewrite teleporter_measure_all_step.
    destruct (IH (S i)) as (IHe & IHr & IHt).
    assert (Shift : forall j, i + S j = S i + j) by (intros; lia).
    destruct (py_max (teleporter_answer sims noise i cir)) as [e0 | res] eqn:M;
      cbn [bind].
    { pose proof M as M'. apply py_max_Raise in M'. destruct M' as [-> M'].
      split; [| split].
      - intros e E. injection E as <-. exists 0, cir.
        rewrite Nat.add_0_r. split; [reflexivity |]. left.
        split; [reflexivity | exact M'].
      - discriminate.
      - intros All. exfalso.
        destruct (All 0 cir eq_refl) as (c & rest & E).
        rewrite Nat.add_0_r in E. congruence. }
    destruct res as [| ch rest]; cbn [Teleporter.first_char bind].
    { split; [| split].
      - intros e E. injection E as <-. exists 0, cir.
        rewrite Nat.add_0_r. split; [reflexivity |]. right.
        split; [reflexivity | exact M].
      - discriminate.
      - intros All. exfalso.
        destruct (All 0 cir eq_refl) as (c & rest & E).
        rewrite Nat.add_0_r in E. congruence. }
    destruct (Teleporter.measure_all sims noise (S i) cs)
      as [e1 | tail] eqn:T; cbn [bind].
    + split; [| split].
      * intros e E. injection E as <-.
        destruct (IHe e1 eq_refl) as (j & circuit & Hj & Why).
        exists (S j), circuit. rewrite Shift. split; [exact Hj | exact Why].
      * discriminate.
      * intros All. exfalso.
        destruct IHt as (flipped & F); [| discriminate].
        intros j circuit Hj. rewrite <- Shift. apply (All (S j) circuit Hj).
    + destruct (IHr tail eq_refl) as (Hlen & Hall).
      split; [discriminate |]. split.
      * intros flipped E. injection E as <-. cbn [length].
        split; [f_equal; exact Hlen |].
        constructor; [reflexivity | exact Hall].
      * intros _. eexists. reflexivity.
Qed.

Lemma teleporter_loop_keys sims noise : forall cs i flipped,
  Teleporter.measure_all sims noise i cs = Return flipped ->
  forall j circuit,
    nth_error cs j = Some circuit ->
    exists c rest,
      py_max (teleporter_answer sims noise (i + j) circuit)
      = Return (c :: rest).
Proof.
  induction cs as [| cir cs IH]; intros i flipped E j circuit Hj.
  - destruct j; discriminate.
  - rewrite teleporter_measure_all_step in E.
    unbind E as (res, Hres). unbind E as (bit, Hbit).
    unbind E as (tail, Htail).
    destruct j as [| j]; cbn [nth_error] in Hj.
    + injection Hj as <-. rewrite Nat.add_0_r.
      destruct res as [| c rest]; [discriminate Hbit |].
      exists c, rest. exact Hres.
    + replace (i + S j) with (S i + j) by lia.
      exact (IH (S i) tail Htail j circuit Hj).
Qed.

Lemma teleporter_loop_first_failure sims noise : forall cs i j circuit,
  nth_error cs j = Some circuit ->
  (forall j' circuit',
      j' < j -> nth_error cs j' = Some circuit' ->
      exists c rest,
        py_max (teleporter_answer sims noise (i + j') circuit')
        = Return (c :: rest)) ->
  (teleporter_answer sims noise (i + j) circuit = [] ->
   Teleporter.measure_all sims noise i cs = Raise ValueError)
  /\ (py_max (teleporter_answer sims noise (i + j) circuit) = Return [] ->
      Teleporter.measure_all sims noise i cs = Raise IndexError).
Proof.
  induction cs as [| cir cs IH]; intros i j circuit Hj Before.
  - destruct j; discriminate.
  - rewrite teleporter_measure_all_step.
    destruct j as [| j]; cbn [nth_error] in Hj.
    + injection Hj as <-. rewrite Nat.add_0_r.
      split; intros E; rewrite E; reflexivity.
    + destruct (Before 0 cir ltac:(lia) eq_refl) as (c & rest & M).
      rewrite Nat.add_0_r in M. rewrite M.
      cbn [bind Teleporter.first_char].
      replace (i + S j) with (S i + j) by lia.
      destruct (IH (S i) j circuit Hj) as (V & I).
      { intros j' circuit' Hlt Hn.
        replace (S i + j') with (i + S j') by lia.
        apply (Before (S j') circuit'); [lia | exact Hn]. }
      split; intros E; [rewrite (V E) | rewrite (I E)]; reflexivity.
Qed.

(** On the counts the backend answers with, the loop of
    [run_simulation] runs to the end exactly when the key selected for
    every circuit has a first character, and then it has recorded one
    single-character result per circuit.  At the first circuit for which
    this fails, [max] raises [ValueError] if the counts dictionary is
    empty and [res[0]] raises [IndexError] if the selected key is the
    empty string. *)
Theorem teleporter_loop_errors :
  forall sims noise (cs : list circuit),
    ((exists flipped_results,
         Teleporter.measure_all sims noise 0 cs = Return flipped_results)
     <-> (forall j circuit,
            nth_error cs j = Some circuit ->
            exists c rest,
              py_max (teleporter_answer sims noise j circuit)
              = Return (c :: rest)))
    /\ (forall flipped_results,
          Teleporter.measure_all sims noise 0 cs = Return flipped_results ->
          length flipped_results = length cs
          /\ Forall (fun r => length r = 1) flipped_results)
    /\ (forall j circuit,
          nth_error cs j = Some circuit ->
          (forall j' circuit',
              j' < j -> nth_error cs j' = Some circuit' ->
              exists c rest,
                py_max (teleporter_answer sims noise j' circuit')
                = Return (c :: rest)) ->
          (teleporter_answer sims noise j circuit = [] ->
           Teleporter.measure_all sims noise 0 cs = Raise ValueError)
          /\ (py_max (teleporter_answer sims noise j circuit) = Return [] ->
              Teleporter.measure_all sims noise 0 cs = Raise IndexError)).
Proof.
  intros sims noise cs.
  destruct (teleporter_loop_errors_from sims noise cs 0) as (_ & R & T).
  split; [split |]; [| exact T | split; [exact R |]].
  - intros (flipped & F).
    exact (teleporter_loop_keys sims noise cs 0 flipped F).
  - intros j circuit Hj Before.
    exact (teleporter_loop_first_failure sims noise cs 0 j circuit
             Hj Before).
Qed.

Lemma teleporter_loop_errors_witness :
  exists flipped_results,
    Teleporter.measure_all first_outcome_simulators false 0
      (Teleporter.create_circuits (str_lit "01"))
    = Return flipped_results.
Proof.
  apply (proj1 (teleporter_loop_errors first_outcome_simulators false
                  (Teleporter.create_circuits (str_lit "01")))).
  intros [| [| [| j]]] circuit E; cbn in E; try discriminate E;
    injection E as <-; vm_compute; eexists; eexists; reflexivity.
Defined.

End LoopFacts.

(** * Further properties of [run_simulation] *)

Section TeleporterRun.

Lemma convert_binary_to_text_Raise chunks e :
  convert_binary_to_text chunks = Raise e -> e = ValueError.
Proof.
  induction chunks as [| chunk rest IH]; cbn [convert_binary_to_text];
    [discriminate |].
  destruct (int_base2 chunk) as [n |];
    [| intros E; injection E as <-; reflexivity].
  destruct (n <=? 1114111)%N;
    [| intros E; injection E as <-; reflexivity].
  destruct (convert_binary_to_text rest) as [e' | text]; cbn [bind];
    [| discriminate].
  intros E. injection E as <-. apply IH. reflexivity.
Qed.

Lemma run_simulation_no_circuit sims self :
  Teleporter.circuits self = [] ->
  Teleporter.run_simulation sims self = Raise TypeError.
Proof. unfold Teleporter.run_simulation. intros ->. reflexivity. Qed.

Lemma run_simulation_TypeError sims self :
  Teleporter.run_simulation sims self = Raise TypeError ->
  Teleporter.circuits self = [].
Proof.
  unfold Teleporter.run_simulation.
  destruct (Teleporter.circuits self) as [| c cs] eqn:C; [reflexivity |].
  cbn [Teleporter.circuit_complexity bind].
  rewrite teleporter_default_shots.
  cbn [bind Teleporter.noise_model Teleporter.circuits
       Teleporter.text_to_send].
  destruct (teleporter_loop_errors_from sims (Teleporter.noise_model self)
              (c :: cs) 0) as (E & _ & _).
  destruct (Teleporter.measure_all sims (Teleporter.noise_model self) 0
              (c :: cs)) as [e | flipped]; cbn [bind].
  - intros R. injection R as ->.
    destruct (E TypeError eq_refl) as (j & circuit & _ & [[A _] | [A _]]);
      discriminate A.
  - destruct (convert_binary_to_text _) as [e | text] eqn:T; cbn [bind];
      [| discriminate].
    apply convert_binary_to_text_Raise in T. subst e. discriminate.
Qed.

Lemma convert_empty text : convert_text_to_binary text = [] -> text = [].
Proof.
  destruct text as [| c text]; [reflexivity |].
  cbn [convert_text_to_binary flat_map]. intros E.
  apply app_eq_nil in E. destruct E as [E _].
  apply (f_equal (@length char)) in E. unfold char_to_bits in E.
  rewrite length_zfill in E. cbn [length] in E. lia.
Qed.

(** [run_simulation] raises [TypeError] exactly when the object has no
    circuit, whatever the backend answers; and the whole pipeline,
    construction then [run_simulation], ends in [TypeError] exactly when
    the text was read from a file that is empty. *)
Theorem run_simulation_type_error_iff :
  (forall sims self,
      Teleporter.run_simulation sims self = Raise TypeError
      <-> Teleporter.circuits self = [])
  /\ (forall files shots file_path text_to_send noise_model sims,
        bind (Teleporter.init files shots file_path text_to_send noise_model)
             (Teleporter.run_simulation sims)
        = Raise TypeError
        <-> exists path,
              file_path = Some path /\ truthy file_path = true
              /\ files path = Some []).
Proof.
  split.
  - intros sims self. split;
      [apply run_simulation_TypeError | apply run_simulation_no_circuit].
  - intros files shots file_path text_to_send noise_model sims. split.
    + intros E.
      destruct (Teleporter.init files shots file_path text_to_send noise_model)
        as [e | self] eqn:I; cbn [bind] in E.
      * injection E as ->. exfalso.
        destruct (truthy file_path) eqn:F.
        -- destruct file_path as [path |]; [| discriminate].
           rewrite (init_from_file files shots path text_to_send
                      noise_model F) in I.
           destruct (files path); discriminate.
        -- destruct (truthy text_to_send) eqn:T.
           ++ destruct text_to_send as [text |]; [| discriminate].
              rewrite (init_from_text files shots file_path text
                         noise_model F T) in I. discriminate.
           ++ rewrite (init_guard files shots file_path text_to_send
                         noise_model F T) in I. discriminate.
      * apply run_simulation_TypeError in E.
        destruct (truthy file_path) eqn:F.
        -- destruct file_path as [path |]; [| discriminate].
           exists path. split; [reflexivity |]. split; [reflexivity |].
           rewrite (init_from_file files shots path text_to_send
                      noise_model F) in I.
           destruct (files path) as [text |]; [| discriminate].
           injection I as <-. cbn [Teleporter.object Teleporter.circuits] in E.
           unfold Teleporter.create_circuits in E.
           apply map_eq_nil in E. apply convert_empty in E. subst text.
           reflexivity.
        -- exfalso.
           destruct (truthy text_to_send) eqn:T.
           ++ destruct text_to_send as [text |]; [| discriminate].
              rewrite (init_from_text files shots file_path text
                         noise_model F T) in I.
              injection I as <-.
              cbn [Teleporter.object Teleporter.circuits] in E.
              unfold Teleporter.create_circuits in E.
              apply map_eq_nil in E. apply convert_empty in E. subst text.
              discriminate T.
           ++ rewrite (init_guard files shots file_path text_to_send
                         noise_model F T) in I. discriminate.
    + intros (path & -> & F & Hfile).
      rewrite (init_from_file files shots path text_to_send noise_model F).
      rewrite Hfile. reflexivity.
Qed.

Lemma len_create_circuit bit : len (Teleporter.create_circuit bit) = 23.
Proof. reflexivity. Qed.

(** Every circuit [create_circuits] builds has 23 instructions, so a
    [run_simulation] that returns, on an object built by [__init__],
    leaves exactly 5 in [self.shots], whatever [shots] the constructor
    was given and whatever the text is. *)
Theorem run_simulation_stores_five_shots :
  forall files shots file_path text_to_send noise_model sims
         self self' returned_pair,
    Teleporter.init files shots file_path text_to_send noise_model
    = Return self ->
    Teleporter.run_simulation sims self = Return (self', returned_pair) ->
    Forall (fun c => len c = 23) (Teleporter.circuits self)
    /\ Teleporter.shots self' = Int 5.
Proof.
  intros files shots file_path text_to_send noise_model sims
    self self' [received flag] I R.
  destruct (init_Return files shots file_path text_to_send noise_model
              self I) as (text & ->).
  split.
  - cbn [Teleporter.object Teleporter.circuits].
    unfold Teleporter.create_circuits. apply Forall_forall.
    intros c Hc. apply in_map_iff in Hc. destruct Hc as (bit & <- & _).
    apply len_create_circuit.
  - destruct (run_simulation_Return sims _ self' received flag R)
      as (complexity & stored & Hc & Hs & -> & _).
    cbn [Teleporter.shots].
    cbn [Teleporter.object Teleporter.circuits] in Hc.
    destruct (convert_text_to_binary text) as [| bit bits];
      [discriminate Hc |].
    cbn [Teleporter.create_circuits map Teleporter.circuit_complexity] in Hc.
    injection Hc as <-. rewrite teleporter_default_shots in Hs.
    injection Hs as <-. reflexivity.
Qed.

Lemma run_simulation_stores_five_shots_witness :
  Teleporter.shots
    (Teleporter.Make (Int 5) (str_lit "Hi")
       (convert_text_to_binary (str_lit "Hi"))
       (Teleporter.create_circuits (convert_text_to_binary (str_lit "Hi")))
       false)
  = Int 5.
Proof.
  apply (proj2 (run_simulation_stores_five_shots no_files 7 None
                  (Some (str_lit "Hi")) false first_outcome_simulators
                  (Teleporter.object 7 (str_lit "Hi") false)
                  (Teleporter.Make (Int 5) (str_lit "Hi")
                     (convert_text_to_binary (str_lit "Hi"))
                     (Teleporter.create_circuits
                        (convert_text_to_binary (str_lit "Hi")))
                     false)
                  (str_lit "Hi", true) eq_refl
                  ltac:(vm_compute; reflexivity))).
Defined.

End TeleporterRun.

(** * Further properties of [run_protocol] *)

Section ProtocolRun.

(** [run_protocol] changes nothing in the object but [self.shots], and
    that only when it is [-1]: then it becomes an [int] between 250 and
    4096; any other value is kept. *)
Theorem run_protocol_updates_only_shots :
  forall brotli_decompression adaptive_decompression sims
         self self' returned_pair,
    BB84.run_protocol brotli_decompression adaptive_decompression sims self
    = Return (self', returned_pair) ->
    BB84.data self' = BB84.data self
    /\ BB84.compression self' = BB84.compression self
    /\ BB84.noise_model self' = BB84.noise_model self
    /\ BB84.binary_data self' = BB84.binary_data self
    /\ BB84.data_length self' = BB84.data_length self
    /\ BB84.key_bits self' = BB84.key_bits self
    /\ BB84.base_bits self' = BB84.base_bits self
    /\ (BB84.is_minus_one (BB84.shots self) = false ->
        BB84.shots self' = BB84.shots self)
    /\ (BB84.is_minus_one (BB84.shots self) = true ->
        exists shots,
          BB84.shots self' = Int shots /\ (250 <= shots <= 4096)%Z).
Proof.
  intros bd ad sims self self' pair E.
  unfold BB84.run_protocol in E.
  unbind E as (stored, Hs).
  unbind E as (flipped, _). unbind E as (text, _). unbind E as (decoded, _).
  injection E as <- _. cbn [BB84.data BB84.compression BB84.noise_model
    BB84.binary_data BB84.data_length BB84.key_bits BB84.base_bits
    BB84.shots].
  repeat (split; [reflexivity |]).
  unfold BB84.effective_shots in Hs. split; intros M; rewrite M in Hs.
  - injection Hs as <-. reflexivity.
  - destruct (bb84_default_shots_range (py_len (BB84.binary_data self))
                (py_len_range _)) as (z & Ez & Hz).
    rewrite Ez in Hs. injection Hs as <-. exists z. split; [reflexivity |].
    exact Hz.
Qed.

Lemma run_protocol_updates_only_shots_witness :
  exists shots,
    BB84.shots
      (BB84.Make (str_lit "Hi") BB84.Disabled false (Int 291)
         (convert_text_to_binary (str_lit "Hi")) 16
         (BB84.generate_random_bits Nat.even 0 16)
         (BB84.generate_random_bits Nat.even 16 16))
    = Int shots /\ (250 <= shots <= 4096)%Z.
Proof.
  apply (proj2 (proj2 (proj2 (proj2 (proj2 (proj2 (proj2 (proj2
           (run_protocol_updates_only_shots Return Return
              first_outcome_simulators
              (BB84.init (fun x => x) (fun x => (x, x)) Nat.even
                         (str_lit "Hi") BB84.Disabled false (-1))
              (BB84.Make (str_lit "Hi") BB84.Disabled false (Int 291)
                 (convert_text_to_binary (str_lit "Hi")) 16
                 (BB84.generate_random_bits Nat.even 0 16)
                 (BB84.generate_random_bits Nat.even 16 16))
              (str_lit "Hi", true)
              ltac:(vm_compute; reflexivity)))))))))).
  reflexivity.
Defined.

Lemma returned_run_protocol bd ad sims self :
  returned (BB84.run_protocol bd ad sims self)
  = (shots <- BB84.effective_shots self ;;
     flipped_results <-
       BB84.measure_all sims (BB84.noise_model self) shots 0
         (BB84.binary_data self) ;;
     text <- convert_binary_to_text (chunks8 (join flipped_results)) ;;
     decoded_text <- BB84.decompress_data bd ad text (BB84.compression self) ;;
     Return (decoded_text, str_eqb decoded_text (BB84.data self))).
Proof.
  unfold returned, BB84.run_protocol.
  destruct (BB84.effective_shots self); [reflexivity |].
  cbn [bind BB84.noise_model BB84.shots BB84.compression BB84.data].
  destruct (BB84.measure_all _ _ _ _ _); [reflexivity |]. cbn [bind].
  destruct (convert_binary_to_text _); [reflexivity |]. cbn [bind].
  destruct (BB84.decompress_data _ _ _ _); reflexivity.
Qed.

(** The random key bits and basis bits are generated, padded and stored,
    and never read again: two protocol objects built from the same
    arguments with different random draws send the same bits, and
    [run_protocol] returns the same pair (or raises the same exception)
    for both. *)
Theorem bb84_random_bits_never_used :
  forall brotli_compression adaptive_compression
         brotli_decompression adaptive_decompression
         (tape1 tape2 : nat -> bool) data compression noise_model shots sims,
    let self1 :=
      BB84.init brotli_compression adaptive_compression
                tape1 data compression noise_model shots in
    let self2 :=
      BB84.init brotli_compression adaptive_compression
                tape2 data compression noise_model shots in
    BB84.binary_data self1 = BB84.binary_data self2
    /\ returned (BB84.run_protocol brotli_decompression
                   adaptive_decompression sims self1)
       = returned (BB84.run_protocol brotli_decompression
                     adaptive_decompression sims self2).
Proof.
  intros bc ac bd ad tape1 tape2 data compression noise shots sims
    self1 self2.
  assert (B : BB84.binary_data self1 = BB84.binary_data self2).
  { subst self1 self2. unfold BB84.init. cbn [BB84.binary_data].
    rewrite !length_random. reflexivity. }
  split; [exact B |].
  rewrite !returned_run_protocol. unfold BB84.effective_shots.
  rewrite B. reflexivity.
Qed.




End ProtocolRun.

(** * Further properties of the teleporter's circuit *)

Section TeleporterCircuit.

(** The noiseless outcomes of the circuit [create_circuits] builds for a
    bit: the two measured bits [m0], [m1] of the sender are free, the
    receiver's bit [2] and its copy in bit [5] are the complement of the
    bit sent, bits [3] and [4] repeat [m0] and [m1], and bit [0] is
    overwritten with 0.  Qubits 3 to 5 are never excited, so the gates
    after the last barrier change nothing. *)
Theorem teleporter_circuit_outcomes :
  forall (bit : char) (res : str),
    let sent := N.eqb bit c1 in
    In res (outcomes (Teleporter.create_circuit bit))
    <-> exists m0 m1 : bool,
          res = key_of [false; m1; negb sent; m0; m1; negb sent].
Proof.
  intros bit res sent. subst sent. unfold Teleporter.create_circuit.
  destruct (N.eqb bit c1).
  - split.
    + vm_compute. intros [<- | [<- | [<- | [<- | []]]]];
        [exists false, false | exists false, true
         | exists true, false | exists true, true]; reflexivity.
    + intros (m0 & m1 & ->). destruct m0, m1; vm_compute; tauto.
  - split.
    + vm_compute. intros [<- | [<- | [<- | [<- | []]]]];
        [exists false, false | exists false, true
         | exists true, false | exists true, true]; reflexivity.
    + intros (m0 & m1 & ->). destruct m0, m1; vm_compute; tauto.
Qed.

Lemma teleporter_measure_all_majority sims noise : forall bits i,
  is_bits bits = true ->
  (forall j bit,
      nth_error bits j = Some bit ->
      exists rest,
        py_max (teleporter_answer sims noise (i + j)
                  (Teleporter.create_circuit bit))
        = Return ((if N.eqb bit c1 then c0 else c1) :: rest)) ->
  Teleporter.measure_all sims noise i (Teleporter.create_circuits bits)
  = Return (map (fun c => [c]) bits).
Proof.
  induction bits as [| b bits IH]; intros i B All; [reflexivity |].
  apply is_bits_cons in B. destruct B as [Hb B].
  cbn [Teleporter.create_circuits map].
  rewrite teleporter_measure_all_step.
  destruct (All 0 b eq_refl) as (rest & M). rewrite Nat.add_0_r in M.
  rewrite M. cbn [Teleporter.first_char bind].
  fold (Teleporter.create_circuits bits).
  rewrite IH; [| exact B |].
  - cbn [bind]. do 2 f_equal. destruct Hb as [-> | ->]; reflexivity.
  - intros j bit Hj. replace (S i + j) with (i + S j) by lia.
    apply (All (S j) bit Hj).
Qed.

(** The vote masks noise in the teleporter too: if for every circuit the
    most frequent outcome starts with the complement of the bit the
    circuit encodes, [run_simulation] returns the text with [True], with
    or without a noise model, for a text of whole bytes. *)
Theorem teleporter_plurality_masks_noise :
  forall shots text noise_model sims,
    let self := Teleporter.object shots text noise_model in
    text <> [] ->
    is_bytes text = true ->
    (forall j bit,
        nth_error (Teleporter.binary_text self) j = Some bit ->
        exists rest,
          py_max (teleporter_answer sims noise_model j
                    (Teleporter.create_circuit bit))
          = Return ((if N.eqb bit c1 then c0 else c1) :: rest)) ->
    returned (Teleporter.run_simulation sims self) = Return (text, true).
Proof.
  intros shots text noise sims self Hne B All. subst self.
  unfold returned, Teleporter.run_simulation, Teleporter.object in *.
  cbn [Teleporter.text_to_send Teleporter.circuits Teleporter.noise_model
       Teleporter.binary_text] in *.
  destruct text as [| c text]; [congruence |].
  set (sent := c :: text) in *.
  assert (C : exists complexity,
             Teleporter.circuit_complexity
               (Teleporter.create_circuits (convert_text_to_binary sent))
             = Return complexity).
  { subst sent. destruct (is_bytes_cons _ _ B) as [Hc _].
    pose proof (length_char_to_bits c Hc) as L.
    cbn [convert_text_to_binary flat_map].
    destruct (char_to_bits c) as [| b bs]; [discriminate L |].
    cbn. eexists. reflexivity. }
  destruct C as (complexity & ->). cbn [bind].
  rewrite teleporter_default_shots. cbn [bind].
  rewrite (teleporter_measure_all_majority sims noise _ 0
             (is_bits_convert sent) All).
  cbn [bind]. unfold Teleporter.handle_flipped_results.
  rewrite join_singletons, (convert_roundtrip sent B). cbn [bind].
  rewrite str_eqb_refl. reflexivity.
Qed.

Lemma teleporter_plurality_masks_noise_witness :
  returned (Teleporter.run_simulation
              (Simulators mostly_right first_outcome)
              (Teleporter.object 1 (str_lit "A") true))
  = Return (str_lit "A", true).
Proof.
  apply (teleporter_plurality_masks_noise 1 (str_lit "A") true
           (Simulators mostly_right first_outcome)
           ltac:(discriminate) eq_refl).
  intros j bit Hj. apply nth_error_In in Hj. vm_compute in Hj.
  repeat (destruct Hj as [<- | Hj];
          [vm_compute; eexists; reflexivity |]).
  destruct Hj.
Defined.

End TeleporterCircuit.
